(** * liblcf: the Python binding's loaders and the chunk codec they drive

    Four parts.

    - [Pylcf] embeds [tools/python/index.cpp]: the module-level
      [parsed_encoding], the [encoding] accessor, and the loaders
      [read_lcf], [read_ldb], [read_lmt] and [read_lmu].  The liblcf
      readers, the encoding utilities and the filesystem queries they
      call are collaborators and are taken as an environment.
    - [Codec] is the chunk-tagged record codec (primitive varint codec,
      trait descriptors, generic record reader and writer).
    - [Bindings] embeds the other code of [tools/python/index.cpp]: the
      [__repr__] of [EventCommand] and of [EventPageConditionFlags],
      and the [EventCommand.tag] dict.
    - [Pycast] embeds [src/pycast.h]: the caster between Python
      sequences and liblcf's arrays. *)

From Stdlib Require Import ZArith NArith List String Ascii DecimalString Lia Bool.
From Stdlib Require Import DecimalFacts DecimalPos DecimalZ.
From Stdlib.Strings Require Import Byte.
From stdpp Require Import base list gmap strings.
Import ListNotations.

Module Pylcf.

Local Open Scope string_scope.

(** ** Values handed to and returned from the loaders *)

(** [std::variant<int, std::string> path_or_id]. *)
Inductive PathOrId :=
| Id (id : Z)
| Path (full_path : string).

(** The collaborator calls a loader makes, in program order.  The list is
    ghost state: it records which reader was asked to parse which path
    with which encoding, whether [DetectEncodings] ran, and what was
    printed. *)
Inductive Call :=
| LDB_Load (path encoding : string)
| LMT_Load (path encoding : string)
| LSD_Load (path encoding : string)
| LMU_Load (path encoding : string)
| DetectEncodings
| Print (path : string).

(** Module-level state: [static std::string parsed_encoding {}]
    (index.cpp:100), together with the ghost call list. *)
Record World := mkWorld {
  parsed_encoding : string;
  calls : list Call
}.

Definition initial_world : World := mkWorld "" [].

(** A loader either returns, or dereferences a null [unique_ptr]
    ([*db] at index.cpp:342 and :391 when the first parse failed), after
    which the program has no defined behaviour. *)
Inductive Outcome (A : Type) :=
| Returns (a : A) (w : World)
| NullDeref (w : World).
Arguments Returns {A} a w.
Arguments NullDeref {A} w.

Definition M (A : Type) : Type := World -> Outcome A.

Definition ret {A} (a : A) : M A := fun w => Returns a w.

Definition bind {A B} (m : M A) (k : A -> M B) : M B :=
  fun w => match m w with
           | Returns a w' => k a w'
           | NullDeref w' => NullDeref w'
           end.

Notation "x <- m ;; k" := (bind m (fun x => k))
  (at level 100, m at next level, right associativity).
Notation "m ;;; k" := (bind m (fun _ => k))
  (at level 100, k at level 200, right associativity).

Definition get_parsed_encoding : M string :=
  fun w => Returns (parsed_encoding w) w.

Definition set_parsed_encoding (e : string) : M unit :=
  fun w => Returns tt (mkWorld e (calls w)).

Definition emit (c : Call) : M unit :=
  fun w => Returns tt (mkWorld (parsed_encoding w) (calls w ++ [c])).

Definition deref {A} (p : option A) : M A :=
  fun w => match p with
           | Some a => Returns a w
           | None => NullDeref w
           end.

(** ** Pure helpers of index.cpp *)

(** [isascii(static_cast<int>(c))]: the value has no bit above the low
    seven. *)
Definition isascii (c : ascii) : bool := (N_of_ascii c <? 128)%N.

(** index.cpp:94-98. *)
Fixpoint StringIsAscii (s : string) : bool :=
  match s with
  | EmptyString => true
  | String c s' => isascii c && StringIsAscii s'
  end.

Definition empty (s : string) : bool :=
  match s with
  | EmptyString => true
  | String _ _ => false
  end.

(** [operator<<(int)] in the default decimal base. *)
Definition decimal (n : Z) : string := NilZero.string_of_int (Z.to_int n).

Fixpoint fill_string (n : nat) (c : ascii) : string :=
  match n with
  | O => EmptyString
  | S n' => String c (fill_string n' c)
  end.

(** Field output under [std::setw(w)] and [std::setfill(c)] with the
    default adjustment: the fill goes in front, and only when the text
    is shorter than the width. *)
Definition setw_setfill (w : nat) (c : ascii) (s : string) : string :=
  fill_string (w - String.length s) c ++ s.

(** index.cpp:321-323 and :426-428:
    [stream << "Map" << std::setw(4) << std::setfill('0') << *id << ".lmu"]. *)
Definition map_path (id : Z) : string :=
  "Map" ++ setw_setfill 4 "0"%char (decimal id) ++ ".lmu".

Definition resolve_path (path_or_id : PathOrId) : string :=
  match path_or_id with
  | Id id => map_path id
  | Path full_path => full_path
  end.

(** [std::string header(buffer)]: the bytes of the zero-initialised
    buffer up to its first NUL. *)
Fixpoint c_string (s : string) : string :=
  match s with
  | EmptyString => EmptyString
  | String c s' => if Ascii.eqb c zero then EmptyString else String c (c_string s')
  end.

Fixpoint skip (n : nat) (s : string) : string :=
  match n, s with
  | O, _ => s
  | S n', String _ s' => skip n' s'
  | S _, EmptyString => EmptyString
  end.

Fixpoint take (n : nat) (s : string) : string :=
  match n, s with
  | S n', String c s' => String c (take n' s')
  | _, _ => EmptyString
  end.

(** index.cpp:327-332: open the file, seek to offset 1, read 10 bytes
    into a zeroed buffer.  A file that cannot be opened leaves the
    buffer zeroed. *)
Definition read_header (content : option string) : string :=
  match content with
  | Some bytes => c_string (take 10 (skip 1 bytes))
  | None => EmptyString
  end.

(** The four literals [read_lcf] compares the header with. *)
Definition sig_database : string := "LcfDataBas".
Definition sig_map_tree : string := "LcfMapTree".
Definition sig_save_data : string := "LcfSaveDat".
Definition sig_map_unit : string := "LcfMapUnit".

Definition signatures : list string :=
  [sig_database; sig_map_tree; sig_save_data; sig_map_unit].

(** ** The collaborators *)

(** What index.cpp calls but does not define: the four liblcf readers
    ([None] is a null [unique_ptr]), [lcf::ReaderUtil], and the
    [std::filesystem] and [std::ifstream] queries.  [canonical] is
    taken total: it is only called on a path that a reader has just
    parsed. *)
Record Env (Database TreeMap Map Save : Type) := mkEnv {
  LDB_Reader_Load : string -> string -> option Database;
  LMT_Reader_Load : string -> string -> option TreeMap;
  LSD_Reader_Load : string -> string -> option Save;
  LMU_Reader_Load : string -> string -> option Map;
  ReaderUtil_DetectEncodings : Database -> list string;
  ReaderUtil_Recode : string -> string -> string;
  ReaderUtil_GetLocaleEncoding : string;
  system_name : Database -> string;
  canonical : string -> string;
  parent_path : string -> string;
  path_append : string -> string -> string;
  exists_ : string -> bool;
  file_content : string -> option string
}.
Arguments LDB_Reader_Load {_ _ _ _} _ _ _.
Arguments LMT_Reader_Load {_ _ _ _} _ _ _.
Arguments LSD_Reader_Load {_ _ _ _} _ _ _.
Arguments LMU_Reader_Load {_ _ _ _} _ _ _.
Arguments ReaderUtil_DetectEncodings {_ _ _ _} _ _.
Arguments ReaderUtil_Recode {_ _ _ _} _ _ _.
Arguments ReaderUtil_GetLocaleEncoding {_ _ _ _} _.
Arguments system_name {_ _ _ _} _ _.
Arguments canonical {_ _ _ _} _ _.
Arguments parent_path {_ _ _ _} _ _.
Arguments path_append {_ _ _ _} _ _ _.
Arguments exists_ {_ _ _ _} _ _.
Arguments file_content {_ _ _ _} _ _.

(** [LcfObject] (index.cpp:70-76); a [unique_ptr] alternative may be
    null. *)
Inductive LcfObject (Database TreeMap Map Save : Type) :=
| ObjMap (p : option Map)
| ObjTreeMap (p : option TreeMap)
| ObjSave (p : option Save)
| ObjDatabase (p : option Database)
| ObjNone.
Arguments ObjMap {_ _ _ _} p.
Arguments ObjTreeMap {_ _ _ _} p.
Arguments ObjSave {_ _ _ _} p.
Arguments ObjDatabase {_ _ _ _} p.
Arguments ObjNone {_ _ _ _}.

Section Loaders.

Context {Database TreeMap Map Save : Type}.
Variable env : Env Database TreeMap Map Save.

Definition auto_or_empty (encoding : string) : bool :=
  empty encoding || (encoding =? "auto").

(** ** [encoding] (index.cpp:305-310) *)
Definition encoding (enc : string) : M string :=
  if empty enc then get_parsed_encoding
  else set_parsed_encoding enc ;;; ret enc.

Definition load_ldb (path enc : string) : M (option Database) :=
  emit (LDB_Load path enc) ;;; ret (LDB_Reader_Load env path enc).
Definition load_lmt (path enc : string) : M (option TreeMap) :=
  emit (LMT_Load path enc) ;;; ret (LMT_Reader_Load env path enc).
Definition load_lsd (path enc : string) : M (option Save) :=
  emit (LSD_Load path enc) ;;; ret (LSD_Reader_Load env path enc).
Definition load_lmu (path enc : string) : M (option Map) :=
  emit (LMU_Load path enc) ;;; ret (LMU_Reader_Load env path enc).

Definition detect_encodings (db : Database) : M (list string) :=
  emit DetectEncodings ;;; ret (ReaderUtil_DetectEncodings env db).

(** [canonical(path).parent_path() / "System" / Recode(system_name, candidate)]. *)
Definition system_path_of (path name candidate : string) : string :=
  path_append env
    (path_append env (parent_path env (canonical env path)) "System")
    (ReaderUtil_Recode env name candidate).

(** The [for (std::string &candidate : candidates)] loop of
    index.cpp:343-353 and :392-402; the result is the local [encoding]
    after the loop. *)
Fixpoint probe_candidates (path name : string) (candidates : list string)
    (enc : string) : M string :=
  match candidates with
  | [] => ret enc
  | candidate :: rest =>
      if negb (StringIsAscii name) then
        let system_path := system_path_of path name candidate in
        if exists_ env system_path then
          set_parsed_encoding system_path ;;; ret system_path
        else probe_candidates path name rest enc
      else probe_candidates path name rest enc
  end.

Definition no_candidates (candidates : list string) : bool :=
  match candidates with
  | [] => true
  | _ :: _ => false
  end.

(** index.cpp:354-358 and :403-407. *)
Definition settle_encoding (candidates : list string) (enc : string) : M string :=
  if negb (no_candidates candidates) && empty enc then
    let front := hd EmptyString candidates in
    set_parsed_encoding front ;;; ret front
  else if empty enc then ret (ReaderUtil_GetLocaleEncoding env)
  else ret enc.

(** The body of [if (encoding.empty() || encoding == "auto")], the same
    text in [read_lcf] (index.cpp:341-360) and [read_ldb] (:390-409). *)
Definition guess_and_reparse (path enc : string) (db : option Database)
    : M (option Database) :=
  db0 <- deref db ;;
  candidates <- detect_encodings db0 ;;
  enc1 <- probe_candidates path (system_name env db0) candidates enc ;;
  enc2 <- settle_encoding candidates enc1 ;;
  load_ldb path enc2.

(** ** [read_lcf] (index.cpp:318-377) *)
Definition read_lcf (path_or_id : PathOrId) (enc : string)
    : M (LcfObject Database TreeMap Map Save) :=
  let path := resolve_path path_or_id in
  let header := read_header (file_content env path) in
  cached <- get_parsed_encoding ;;
  let enc := if auto_or_empty enc then cached else enc in
  if header =? sig_database then
    db <- load_ldb path enc ;;
    if auto_or_empty enc then
      db' <- guess_and_reparse path enc db ;;
      ret (ObjDatabase db')
    else ret (ObjDatabase db)
  else
    let enc := if empty enc then ReaderUtil_GetLocaleEncoding env else enc in
    if header =? sig_map_tree then
      data <- load_lmt path enc ;; ret (ObjTreeMap data)
    else if header =? sig_save_data then
      data <- load_lsd path enc ;; ret (ObjSave data)
    else if header =? sig_map_unit then
      data <- load_lmu path enc ;; ret (ObjMap data)
    else
      emit (Print path) ;;; ret ObjNone.

(** ** [read_ldb] (index.cpp:387-413) *)
Definition read_ldb (path enc : string) : M (option Database) :=
  db <- load_ldb path enc ;;
  if auto_or_empty enc then guess_and_reparse path enc db
  else ret db.

(** ** [read_lmt] (index.cpp:415-420) *)
Definition read_lmt (path enc : string) : M (option TreeMap) :=
  cached <- get_parsed_encoding ;;
  let enc := if auto_or_empty enc then cached else enc in
  load_lmt path enc.

(** ** [read_lmu] (index.cpp:422-435) *)
Definition read_lmu (path_or_id : PathOrId) (enc : string) : M (option Map) :=
  cached <- get_parsed_encoding ;;
  let enc := if auto_or_empty enc then cached else enc in
  let path := resolve_path path_or_id in
  load_lmu path enc.

End Loaders.

(** ** Statement helpers *)

(** The first candidate whose recoded system name is an existing file
    under [System], as the loop of [probe_candidates] finds it. *)
Definition probe_hit {Database TreeMap Map Save : Type}
    (env : Env Database TreeMap Map Save) (path name : string)
    (candidates : list string) : option string :=
  if StringIsAscii name then None
  else List.find (exists_ env)
         (List.map (system_path_of env path name) candidates).

Definition digit (d : Z) : ascii := ascii_of_N (48 + Z.to_N (d mod 10)).

(** An id written with exactly four decimal digits. *)
Definition four_digits (id : Z) : string :=
  String (digit (id / 1000)) (String (digit (id / 100))
    (String (digit (id / 10)) (String (digit id) EmptyString))).

(** The check of [map_path] against [four_digits] at one id. *)
Definition four_digit_path_b (n : nat) : bool :=
  map_path (Z.of_nat n) =? "Map" ++ four_digits (Z.of_nat n) ++ ".lmu".

(** ** A small game tree to run the loaders on

    Three project directories.  [/game] holds a database whose system
    name is two non-ASCII bytes and a [System] file of that name;
    [/plain] holds one with an ASCII system name; for [/bare] no
    candidate encoding is detected.  [/game] also holds a map tree, a
    map, a save and a text file. *)
Module Demo.

Record Db := mkDb { db_path : string; db_encoding : string }.

Definition nonascii_name : string :=
  String (ascii_of_N 131) (String (ascii_of_N 86) EmptyString).

Fixpoint dirname (s : string) : option string :=
  match s with
  | EmptyString => None
  | String c s' =>
      match dirname s' with
      | Some d => Some (String c d)
      | None => if Ascii.eqb c "/"%char then Some EmptyString else None
      end
  end.

Definition lcf_file (signature : string) : string :=
  String (ascii_of_nat (String.length signature)) signature
    ++ String zero EmptyString.

Definition files : list (string * string) :=
  [ ("/game/RPG_RT.ldb", lcf_file "LcfDataBase");
    ("/plain/RPG_RT.ldb", lcf_file "LcfDataBase");
    ("/bare/RPG_RT.ldb", lcf_file "LcfDataBase");
    ("/game/RPG_RT.lmt", lcf_file "LcfMapTree");
    ("/game/Map0001.lmu", lcf_file "LcfMapUnit");
    ("/game/Save01.lsd", lcf_file "LcfSaveData");
    ("/game/readme.txt", "RPG Maker 2000 project");
    ("/game/System/" ++ nonascii_name, "BM") ].

Fixpoint lookup_file (fs : list (string * string)) (path : string) : option string :=
  match fs with
  | [] => None
  | (p, bytes) :: fs' => if p =? path then Some bytes else lookup_file fs' path
  end.

Definition is_file (path : string) : bool :=
  match lookup_file files path with Some _ => true | None => false end.

Definition load {A} (mk : string -> string -> A) (path enc : string) : option A :=
  if is_file path then Some (mk path enc) else None.

Definition env : Env Db (string * string) (string * string) (string * string) :=
  {| LDB_Reader_Load := load mkDb;
     LMT_Reader_Load := load pair;
     LSD_Reader_Load := load pair;
     LMU_Reader_Load := load pair;
     ReaderUtil_DetectEncodings := fun db =>
       if db_path db =? "/game/RPG_RT.ldb" then ["ibm-943_P15A-2003"; "windows-1252"]
       else if db_path db =? "/plain/RPG_RT.ldb" then ["windows-1252"]
       else [];
     ReaderUtil_Recode := fun s _ => s;
     ReaderUtil_GetLocaleEncoding := "UTF-8";
     system_name := fun db =>
       if db_path db =? "/game/RPG_RT.ldb" then nonascii_name else "System";
     canonical := fun p => p;
     parent_path := fun p => match dirname p with Some d => d | None => EmptyString end;
     path_append := fun a b => a ++ "/" ++ b;
     exists_ := is_file;
     file_content := lookup_file files |}.

Definition game_ldb : string := "/game/RPG_RT.ldb".
Definition plain_ldb : string := "/plain/RPG_RT.ldb".
Definition bare_ldb : string := "/bare/RPG_RT.ldb".
Definition game_system_file : string := "/game/System/" ++ nonascii_name.

End Demo.

End Pylcf.

(** * The chunk codec

    The codec that the liblcf readers run (the primitive codec, the
    struct traits, the generic record reader and writer) has no source
    file among those embedded above; its definitions here follow the
    specification, sections 3, 4 and 7, and say so. *)

Module Codec.

Local Open Scope N_scope.
Local Set Warnings "-register-all".

(** ** Errors and results *)

(** Modelled from the spec: the error type of the codec, which is
    missing from the sources; the taxonomy of section 7. *)
Inductive Error :=
| TruncatedStream
| MalformedChunk
| UnrecognizedFormat
| UnsupportedEncoding
| IOFailure.

Inductive Result (A : Type) :=
| Ok (a : A)
| Err (e : Error).
Arguments Ok {A} a.
Arguments Err {A} e.

Definition bind {A B} (m : Result A) (k : A -> Result B) : Result B :=
  match m with
  | Ok a => k a
  | Err e => Err e
  end.

Notation "x <- m ;; k" := (bind m (fun x => k))
  (at level 100, m at next level, right associativity).

(** ** Primitive codec (section 4.1) *)

(** Modelled from the spec: the target integer width of the missing
    [decode_varint]; section 4.1 leaves the number open, 32 bits is
    taken. *)
Definition int_bits : N := 32.
Definition int_limit : N := 2 ^ int_bits.

Definition byte_of_N (n : N) : byte :=
  match Byte.of_N n with
  | Some b => b
  | None => x00
  end.

(** Modelled from the spec: the missing [encode_varint] of section 4.1,
    base 128, least significant group first, the high bit of a byte set
    when more bytes follow; always the shortest form. *)
Fixpoint encode_varint_aux (fuel : nat) (v : N) : list byte :=
  match fuel with
  | O => []
  | S fuel' =>
      if v <? 128 then [byte_of_N v]
      else byte_of_N (128 + v mod 128) :: encode_varint_aux fuel' (v / 128)
  end.

Definition encode_varint (v : N) : list byte :=
  encode_varint_aux (S (N.to_nat (N.log2 v))) v.

(** Modelled from the spec: the missing [decode_varint] of section 4.1,
    failing with [TruncatedStream] when the stream ends inside the
    number or the value leaves the target width.  The rest of the
    cursor is returned in place of a count of consumed bytes. *)
Fixpoint decode_varint_aux (shift acc : N) (bs : list byte)
    : Result (N * list byte) :=
  match bs with
  | [] => Err TruncatedStream
  | b :: rest =>
      let x := Byte.to_N b in
      let acc' := acc + (x mod 128) * 2 ^ shift in
      if int_limit <=? acc' then Err TruncatedStream
      else if x <? 128 then Ok (acc', rest)
      else decode_varint_aux (shift + 7) acc' rest
  end.

Definition decode_varint (bs : list byte) : Result (N * list byte) :=
  decode_varint_aux 0 0 bs.

(** Modelled from the spec: the missing [encode_chunk_header] and
    [decode_chunk_header] of section 4.1, a tag varint followed by a
    length varint; every chunk carries its length. *)
Definition encode_chunk_header (tag len : N) : list byte :=
  encode_varint tag ++ encode_varint len.

Definition decode_chunk_header (bs : list byte) : Result (N * N * list byte) :=
  t <- decode_varint bs ;;
  l <- decode_varint (snd t) ;;
  Ok (fst t, fst l, snd l).

(** Modelled from the spec: the terminator chunk of section 4.4, tag
    0, zero length, no payload. *)
Definition terminator : list byte := encode_chunk_header 0 0.

(** ** Records and trait descriptors (sections 3 and 4.2) *)

(** Modelled from the spec: the record values of section 3, whose
    types are missing from the sources; one constructor per field
    kind.  A floating point value is kept as the eight bytes that
    represent it; a record is the list of its field values in the order
    of its descriptor. *)
Inductive Value :=
| VBool (b : bool)
| VInt (n : N)
| VFloat (bits : list byte)
| VString (s : list byte)
| VRecord (fields : list Value)
| VRepeated (elems : list Value)
| VArray (xs : list N)
| VBits (flags : list bool).

(** Modelled from the spec: the struct trait registry of sections 3
    and 4.2, missing from the sources: the field kinds, and a trait
    descriptor as the list of (tag, kind, default) in ascending tag
    order. *)
Inductive FieldKind :=
| KBool
| KInt
| KFloat
| KString
| KNested (child : list Field)
| KRepeated (child : list Field)
| KArray (n : nat)
| KBits (n : nat)
with Field :=
| mkField (tag : N) (kind : FieldKind) (default : Value).

Definition tag (f : Field) : N := let 'mkField t _ _ := f in t.
Definition kind (f : Field) : FieldKind := let 'mkField _ k _ := f in k.
Definition default (f : Field) : Value := let 'mkField _ _ v := f in v.

(** A record with every field at its declared default. *)
Definition defaults (d : list Field) : list Value := List.map default d.

(** Tag lookup for the reader: position and descriptor of the field. *)
Fixpoint find_field (t : N) (d : list Field) : option (nat * Field) :=
  match d with
  | [] => None
  | f :: d' =>
      if tag f =? t then Some (O, f)
      else match find_field t d' with
           | Some (i, g) => Some (S i, g)
           | None => None
           end
  end.

Fixpoint list_eqb {A} (eqb : A -> A -> bool) (xs ys : list A) : bool :=
  match xs, ys with
  | [], [] => true
  | x :: xs', y :: ys' => eqb x y && list_eqb eqb xs' ys'
  | _, _ => false
  end.

(** Value equality, the writer's test for "differs from its default". *)
Fixpoint value_eqb (v w : Value) : bool :=
  match v, w with
  | VBool a, VBool b => Bool.eqb a b
  | VInt a, VInt b => a =? b
  | VFloat a, VFloat b => list_eqb Byte.eqb a b
  | VString a, VString b => list_eqb Byte.eqb a b
  | VRecord a, VRecord b => list_eqb value_eqb a b
  | VRepeated a, VRepeated b => list_eqb value_eqb a b
  | VArray a, VArray b => list_eqb N.eqb a b
  | VBits a, VBits b => list_eqb Bool.eqb a b
  | _, _ => false
  end.

(** Induction on values, with the premise for every field of a record
    and every element of a repeated field. *)

Section ValueInduction.

Variable P : Value -> Prop.
Hypothesis Hbool : forall b, P (VBool b).
Hypothesis Hint : forall n, P (VInt n).
Hypothesis Hfloat : forall bits, P (VFloat bits).
Hypothesis Hstring : forall s, P (VString s).
Hypothesis Hrecord : forall fields, Forall P fields -> P (VRecord fields).
Hypothesis Hrepeated : forall elems, Forall P elems -> P (VRepeated elems).
Hypothesis Harray : forall xs, P (VArray xs).
Hypothesis Hbits : forall flags, P (VBits flags).

Fixpoint Value_nested_ind (v : Value) : P v :=
  match v with
  | VBool b => Hbool b
  | VInt n => Hint n
  | VFloat bits => Hfloat bits
  | VString s => Hstring s
  | VRecord fields =>
      Hrecord fields
        ((fix all (vs : list Value) : Forall P vs :=
            match vs with
            | [] => Forall_nil_2 P
            | x :: vs' => Forall_cons_2 P x vs' (Value_nested_ind x) (all vs')
            end) fields)
  | VRepeated elems =>
      Hrepeated elems
        ((fix all (vs : list Value) : Forall P vs :=
            match vs with
            | [] => Forall_nil_2 P
            | x :: vs' => Forall_cons_2 P x vs' (Value_nested_ind x) (all vs')
            end) elems)
  | VArray xs => Harray xs
  | VBits flags => Hbits flags
  end.

End ValueInduction.

(** ** Scalar payloads *)

(** Modelled from the spec: the scalar payload layouts of the missing
    codec, which section 4.4 leaves to "the Primitive Codec".  A boolean and an integer are one varint,
    a float its eight bytes, a string its bytes, an array of scalars
    one varint per element, a bit array eight flags to the byte, low
    bit first. *)
Definition encode_bool (b : bool) : list byte :=
  encode_varint (if b then 1 else 0).

Fixpoint encode_array (xs : list N) : list byte :=
  match xs with
  | [] => []
  | x :: xs' => encode_varint x ++ encode_array xs'
  end.

Fixpoint decode_array (n : nat) (bs : list byte) : Result (list N) :=
  match n with
  | O => Ok []
  | S n' =>
      x <- decode_varint bs ;;
      xs <- decode_array n' (snd x) ;;
      Ok (fst x :: xs)
  end.

Fixpoint pack_bits (flags : list bool) : N :=
  match flags with
  | [] => 0
  | b :: flags' => N.b2n b + 2 * pack_bits flags'
  end.

Fixpoint unpack_bits (n : nat) (x : N) : list bool :=
  match n with
  | O => []
  | S n' => N.odd x :: unpack_bits n' (x / 2)
  end.

Fixpoint le_bytes (m : nat) (x : N) : list byte :=
  match m with
  | O => []
  | S m' => byte_of_N (x mod 256) :: le_bytes m' (x / 256)
  end.

Fixpoint le_value (bs : list byte) : N :=
  match bs with
  | [] => 0
  | b :: bs' => Byte.to_N b + 256 * le_value bs'
  end.

Definition bits_bytes (n : nat) : nat := Nat.div (n + 7) 8.

Definition encode_bits (flags : list bool) : list byte :=
  le_bytes (bits_bytes (length flags)) (pack_bits flags).

Definition decode_bits (n : nat) (bs : list byte) : Result (list bool) :=
  if (length bs <? bits_bytes n)%nat then Err TruncatedStream
  else Ok (unpack_bits n (le_value (firstn (bits_bytes n) bs))).

Definition decode_float (bs : list byte) : Result (list byte) :=
  if (length bs <? 8)%nat then Err TruncatedStream
  else Ok (firstn 8 bs).

(** ** Generic record writer (section 4.4) *)

(** Modelled from the spec: the missing writer of section 4.4, the
    payload of one field.  A nested record
    is its own chunk stream with terminator; a repeated field is its
    elements one after the other, each written to a buffer whose length
    goes first. *)
Fixpoint write_value (k : FieldKind) (v : Value) {struct v} : list byte :=
  match k, v with
  | KBool, VBool b => encode_bool b
  | KInt, VInt n => encode_varint n
  | KFloat, VFloat bits => bits
  | KString, VString s => s
  | KNested child, VRecord fields =>
      (fix write_fields (d : list Field) (r : list Value) {struct r} : list byte :=
         match d, r with
         | f :: d', x :: r' =>
             (if value_eqb x (default f) then []
              else let payload := write_value (kind f) x in
                   encode_chunk_header (tag f) (N.of_nat (length payload))
                     ++ payload)
             ++ write_fields d' r'
         | _, _ => []
         end) child fields ++ terminator
  | KRepeated child, VRepeated elems =>
      (fix write_elems (es : list Value) : list byte :=
         match es with
         | [] => []
         | e :: es' =>
             let buffer := write_value (KNested child) e in
             encode_varint (N.of_nat (length buffer)) ++ buffer
               ++ write_elems es'
         end) elems
  | KArray _, VArray xs => encode_array xs
  | KBits _, VBits flags => encode_bits flags
  | _, _ => []
  end.

Definition write_fields : list Field -> list Value -> list byte :=
  fix write_fields (d : list Field) (r : list Value) {struct r} : list byte :=
    match d, r with
    | f :: d', x :: r' =>
        (if value_eqb x (default f) then []
         else let payload := write_value (kind f) x in
              encode_chunk_header (tag f) (N.of_nat (length payload))
                ++ payload)
        ++ write_fields d' r'
    | _, _ => []
    end.

(** Modelled from the spec: the missing [write_record] of section
    4.4: the fields in descriptor order, those equal to their default left out, then the
    terminator. *)
Definition write_record (d : list Field) (r : list Value) : list byte :=
  write_fields d r ++ terminator.

(** ** Generic record reader (section 4.3) *)

(** Modelled from the spec: the dispatch by field kind of the missing
    reader (section 4.3); [rec_record] and [rec_elems] are the reader
    itself, for nested and repeated records. *)
Definition decode_payload
    (rec_record : list Field -> list Value -> list byte
                  -> Result (list Value * list byte))
    (rec_elems : list Field -> list byte -> Result (list Value))
    (k : FieldKind) (payload : list byte) : Result Value :=
  match k with
  | KBool => x <- decode_varint payload ;; Ok (VBool (negb (fst x =? 0)))
  | KInt => x <- decode_varint payload ;; Ok (VInt (fst x))
  | KFloat => bits <- decode_float payload ;; Ok (VFloat bits)
  | KString => Ok (VString payload)
  | KNested child =>
      r <- rec_record child (defaults child) payload ;; Ok (VRecord (fst r))
  | KRepeated child =>
      es <- rec_elems child payload ;; Ok (VRepeated es)
  | KArray n => xs <- decode_array n payload ;; Ok (VArray xs)
  | KBits n => flags <- decode_bits n payload ;; Ok (VBits flags)
  end.

(** Modelled from the spec: the loop of the missing reader (section
    4.3).  [read_chunks] decodes
    chunk after chunk into the record [r] until the terminator;
    [read_elems] decodes the length-prefixed sub-streams of a repeated
    field.  [fuel] bounds the number of nested calls; one more than the
    length of the stream is always enough. *)
Fixpoint read_chunks (fuel : nat) (d : list Field) (r : list Value)
    (cur : list byte) {struct fuel} : Result (list Value * list byte) :=
  match fuel with
  | O => Err TruncatedStream
  | S fuel' =>
      h <- decode_chunk_header cur ;;
      let '(t, len, cur1) := h in
      if t =? 0 then Ok (r, cur1)
      else if N.of_nat (length cur1) <? len then Err MalformedChunk
      else
        let payload := firstn (N.to_nat len) cur1 in
        let rest := skipn (N.to_nat len) cur1 in
        match find_field t d with
        | None => read_chunks fuel' d r rest
        | Some (i, f) =>
            v <- decode_payload (read_chunks fuel') (read_elems fuel')
                   (kind f) payload ;;
            read_chunks fuel' d (<[i:=v]> r) rest
        end
  end
with read_elems (fuel : nat) (d : list Field) (cur : list byte)
    {struct fuel} : Result (list Value) :=
  match fuel with
  | O => Err TruncatedStream
  | S fuel' =>
      match cur with
      | [] => Ok []
      | _ :: _ =>
          l <- decode_varint cur ;;
          let '(len, cur1) := l in
          if N.of_nat (length cur1) <? len then Err MalformedChunk
          else
            r <- read_chunks fuel' d (defaults d) (firstn (N.to_nat len) cur1) ;;
            es <- read_elems fuel' d (skipn (N.to_nat len) cur1) ;;
            Ok (VRecord (fst r) :: es)
      end
  end.

Definition read_value (fuel : nat) : FieldKind -> list byte -> Result Value :=
  decode_payload (read_chunks fuel) (read_elems fuel).

(** The loop run on a cursor with the fuel that always suffices:
    continuing a record [r], the elements of a repeated field, and the
    payload of one field. *)
Definition read_into (d : list Field) (r : list Value) (cur : list byte)
    : Result (list Value * list byte) :=
  read_chunks (S (length cur)) d r cur.

Definition read_elements (d : list Field) (cur : list byte)
    : Result (list Value) :=
  read_elems (S (length cur)) d cur.

Definition read_field (k : FieldKind) (payload : list byte) : Result Value :=
  read_value (S (length payload)) k payload.

(** Modelled from the spec: the missing
    [read_record(cursor, record_type)] of section 4.3: start
    from the all-default record and run the loop; the result is the
    record and the cursor behind the terminator. *)
Definition read_record (d : list Field) (cur : list byte)
    : Result (list Value * list byte) :=
  read_into d (defaults d) cur.

(** ** Well-formed descriptors and records *)

(** Tags strictly ascending above [lo] (so non-zero when [lo] is 0 and
    pairwise different), each small enough for a header, and the same
    for the descriptors of nested and repeated fields. *)
Fixpoint kind_ok (k : FieldKind) : bool :=
  match k with
  | KNested child | KRepeated child =>
      (fix fields_ok (lo : N) (d : list Field) {struct d} : bool :=
         match d with
         | [] => true
         | mkField t k' _ :: d' =>
             (lo <? t) && (t <? int_limit) && kind_ok k' && fields_ok t d'
         end) 0 child
  | _ => true
  end.

Definition fields_ok : N -> list Field -> bool :=
  fix fields_ok (lo : N) (d : list Field) {struct d} : bool :=
    match d with
    | [] => true
    | mkField t k' _ :: d' =>
        (lo <? t) && (t <? int_limit) && kind_ok k' && fields_ok t d'
    end.

Definition desc_ok (d : list Field) : bool := fields_ok 0 d.

Definition fits (bs : list byte) : bool := N.of_nat (length bs) <? int_limit.

(** A value of the kind's shape whose integers, and the lengths the
    writer has to put in headers, stay inside the integer width.  A
    field equal to its default is never written and needs nothing. *)
Fixpoint value_ok (k : FieldKind) (v : Value) {struct v} : bool :=
  match k, v with
  | KBool, VBool _ => true
  | KInt, VInt n => n <? int_limit
  | KFloat, VFloat bits => (length bits =? 8)%nat
  | KString, VString _ => true
  | KNested child, VRecord fields =>
      (fix record_ok (d : list Field) (r : list Value) {struct r} : bool :=
         match d, r with
         | [], [] => true
         | f :: d', x :: r' =>
             (value_eqb x (default f)
              || (value_ok (kind f) x && fits (write_value (kind f) x)))
             && record_ok d' r'
         | _, _ => false
         end) child fields
  | KRepeated child, VRepeated elems =>
      (fix elems_ok (es : list Value) : bool :=
         match es with
         | [] => true
         | e :: es' =>
             value_ok (KNested child) e
             && fits (write_value (KNested child) e)
             && elems_ok es'
         end) elems
  | KArray n, VArray xs =>
      (length xs =? n)%nat && forallb (fun x => x <? int_limit) xs
  | KBits n, VBits flags => (length flags =? n)%nat
  | _, _ => false
  end.

Definition record_ok (d : list Field) (r : list Value) : bool :=
  value_ok (KNested d) (VRecord r).

(** Writing [v] as a field of kind [k] and reading the payload back
    gives [v] again. *)
Definition round_trips (v : Value) : Prop :=
  forall k : FieldKind,
    kind_ok k = true -> value_ok k v = true ->
    read_field k (write_value k v) = Ok v.

(** ** Chunks as they lie in a stream *)

(** [c] is one whole chunk: a header announcing a non-terminator tag
    [t] and the length of [p], followed by the payload [p]. *)
Definition is_chunk (c : list byte) (t : N) (p : list byte) : Prop :=
  exists h : list byte,
    c = h ++ p /\ t <> 0 /\
    decode_chunk_header h = Ok (t, N.of_nat (length p), []).




(** ** A descriptor and records to run the codec on *)
Module Demo.

Definition item_desc : list Field :=
  [ mkField 1 KInt (VInt 0);
    mkField 2 KString (VString []) ].

Definition actor_desc : list Field :=
  [ mkField 1 KBool (VBool false);
    mkField 3 KInt (VInt 7);
    mkField 4 KFloat (VFloat (repeat x00 8));
    mkField 10 KString (VString []);
    mkField 11 (KNested item_desc) (VRecord (defaults item_desc));
    mkField 12 (KRepeated item_desc) (VRepeated []);
    mkField 200 (KArray 3) (VArray [0; 0; 0]);
    mkField 300 (KBits 11) (VBits (repeat false 11)) ].

(** Every field set, and field 3 left at its default. *)
Definition actor : list Value :=
  [ VBool true;
    VInt 7;
    VFloat [x01; x02; x03; x04; x05; x06; x07; x08];
    VString [x41; x42];
    VRecord [VInt 5; VString [x61]];
    VRepeated [ VRecord [VInt 1; VString []];
                VRecord [VInt 0; VString [x62]];
                VRecord [VInt 4000000000; VString [x63; x64]] ];
    VArray [1; 128; 70000];
    VBits [true; false; true; true; false; false; false; true;
           true; false; true] ].

Definition chunk_string : list byte := [x0a; x02; x41; x42].


End Demo.

End Codec.

(** * The other bindings of index.cpp and the casters of pycast.h *)

Module Bindings.

Local Open Scope string_scope.
Local Open Scope Z_scope.

(** ** [EventPageConditionFlags.__repr__] (index.cpp:266-278) *)

(** [rpg::EventPageCondition::Flags], the seven members index.cpp
    binds (index.cpp:259-265). *)
Record Flags := mkFlags {
  switch_a : bool;
  switch_b : bool;
  variable : bool;
  item : bool;
  actor : bool;
  timer : bool;
  timer2 : bool
}.

Definition Flags_repr (flags : Flags) : string :=
  ("<pylcf.EventPageConditionFlags"
   ++ (if switch_a flags then " switch_a" else "")
   ++ (if switch_b flags then " switch_b" else "")
   ++ (if variable flags then " variable" else "")
   ++ (if item flags then " item" else "")
   ++ (if actor flags then " actor" else "")
   ++ (if timer flags then " timer" else "")
   ++ (if timer2 flags then " timer2" else "")
   ++ ">")%string.

Definition Flags_eqb (a b : Flags) : bool :=
  Bool.eqb (switch_a a) (switch_a b) && Bool.eqb (switch_b a) (switch_b b)
  && Bool.eqb (variable a) (variable b) && Bool.eqb (item a) (item b)
  && Bool.eqb (actor a) (actor b) && Bool.eqb (timer a) (timer b)
  && Bool.eqb (timer2 a) (timer2 b).

(** Every value of [Flags]. *)
Definition each_bool {A} (f : bool -> list A) : list A := f false ++ f true.

Definition all_Flags : list Flags :=
  each_bool (fun a => each_bool (fun b => each_bool (fun c =>
  each_bool (fun d => each_bool (fun e => each_bool (fun f =>
  each_bool (fun g => [mkFlags a b c d e f g]))))))).

(** The table that compares the text of every pair of flag values. *)
Definition Flags_repr_table : bool :=
  forallb (fun a =>
    forallb (fun b =>
      implb (Flags_repr a =? Flags_repr b)%string (Flags_eqb a b))
      all_Flags) all_Flags.

(** ** [EventCommand.__repr__] (index.cpp:131-219) *)

(** [rpg::EventCommand], the four members index.cpp binds
    (index.cpp:123-130); [code], [indent] and the parameters are
    [int32_t]. *)
Record EventCommand := mkEventCommand {
  code : Z;
  indent : Z;
  string_ : string;
  parameters : list Z
}.

(** The values of [rpg::EventCommand::Code] that the switch names, and
    [rpg::EventCommand::kCodeTags.tag]; both come from a header that
    index.cpp includes.  [tag] gives [None] for a null [const char*]. *)
Record CodeTable := mkCodeTable {
  Comment : Z;
  Comment_2 : Z;
  ConditionalBranch : Z;
  ControlVars : Z;
  ControlSwitches : Z;
  tag : Z -> option string
}.

Definition int_min : Z := - 2 ^ 31.
Definition int_max : Z := 2 ^ 31 - 1.
Definition in_int (z : Z) : bool := (int_min <=? z) && (z <=? int_max).

(** What a run of the lambda comes to: a value; the [std::length_error]
    of [std::string(count, ch)] for a count above [max_size()]; or no
    defined behaviour (an index past the end of [parameters], a signed
    overflow, a null tag written to the stream). *)
Inductive Outcome (A : Type) :=
| Value (a : A)
| LengthError
| Undefined.
Arguments Value {A} a.
Arguments LengthError {A}.
Arguments Undefined {A}.

(** A statement acting on [std::ostringstream out]: the text written so
    far goes in, the result and the text after it come out. *)
Definition Stream (A : Type) : Type := string -> Outcome (A * string).

Definition pure {A} (a : A) : Stream A := fun out => Value (a, out).

Definition then_ {A B} (m : Stream A) (k : A -> Stream B) : Stream B :=
  fun out => match m out with
             | Value (a, out') => k a out'
             | LengthError => LengthError
             | Undefined => Undefined
             end.

Notation "x <- m ;; k" := (then_ m (fun x => k))
  (at level 100, m at next level, right associativity).
Notation "m ;;; k" := (then_ m (fun _ => k))
  (at level 100, k at level 200, right associativity).

(** [out << s]. *)
Definition put (s : string) : Stream unit :=
  fun out => Value (tt, (out ++ s)%string).

(** [out << i] for an [int]. *)
Definition put_int (i : Z) : Stream unit := put (Pylcf.decimal i).

Definition length_error {A} : Stream A := fun _ => LengthError.
Definition undefined {A} : Stream A := fun _ => Undefined.

(** [cmd.parameters[i]]; [DBArray::operator[]] checks no bound. *)
Definition at_ (p : list Z) (i : nat) : Stream Z :=
  match p !! i with
  | Some x => pure x
  | None => undefined
  end.

(** [a - b] on [int]. *)
Definition minus (a b : Z) : Stream Z :=
  if in_int (a - b) then pure (a - b) else undefined.

(** [out << std::string(cmd.indent * 2, ' ')]: the product is an [int],
    converted to [size_t] for the count. *)
Definition put_indent (indent : Z) : Stream unit :=
  if in_int (indent * 2) then
    if indent * 2 <? 0 then length_error
    else put (Pylcf.fill_string (Z.to_nat (indent * 2)) " "%char)
  else undefined.

(** [for (auto &i : cmd.parameters) out << " " << i;]. *)
Fixpoint put_parameters (p : list Z) : Stream unit :=
  match p with
  | [] => pure tt
  | i :: p' => put " " ;;; put_int i ;;; put_parameters p'
  end.

(** index.cpp:141-168. *)
Definition repr_conditional_branch (p : list Z) : Stream unit :=
  put "If" ;;;
  p0 <- at_ p 0 ;;
  if p0 =? 0 then
    put " Switch(" ;;; p1 <- at_ p 1 ;; put_int p1 ;;; put ") = " ;;;
    p2 <- at_ p 2 ;; d <- minus 1 p2 ;; put_int d
  else if p0 =? 1 then
    put " Variable(" ;;; p1 <- at_ p 1 ;; put_int p1 ;;; put ")" ;;;
    p4 <- at_ p 4 ;;
    (if p4 =? 0 then put " = "
     else if p4 =? 1 then put " >= "
     else if p4 =? 2 then put " <= "
     else if p4 =? 3 then put " > "
     else if p4 =? 4 then put " < "
     else if p4 =? 5 then put " != "
     else pure tt) ;;;
    p2 <- at_ p 2 ;;
    if negb (p2 =? 0) then
      put "Variable(" ;;; p3 <- at_ p 3 ;; put_int p3 ;;; put ")"
    else
      p3 <- at_ p 3 ;; put_int p3
  else put_parameters p.

(** index.cpp:169-207; [is_vars] is [evcode == Code::ControlVars]. *)
Definition repr_control (is_vars : bool) (p : list Z) : Stream unit :=
  (if is_vars then put "Set Variable(" else put "Set Switch(") ;;;
  p0 <- at_ p 0 ;;
  (if p0 =? 0 then p1 <- at_ p 1 ;; put_int p1
   else if p0 =? 1 then
     p1 <- at_ p 1 ;; put_int p1 ;;; put ".." ;;; p2 <- at_ p 2 ;; put_int p2
   else if p0 =? 2 then
     put "at Variable(" ;;; p1 <- at_ p 1 ;; put_int p1 ;;; put ")"
   else put "...") ;;;
  p3 <- at_ p 3 ;;
  (if p3 =? 0 then put ") = "
   else if p3 =? 1 then put ") += "
   else if p3 =? 2 then put ") -= "
   else if p3 =? 3 then put ") *= "
   else if p3 =? 4 then put ") /= "
   else if p3 =? 5 then put ") %= "
   else if p3 =? 6 then put ") |= "
   else if p3 =? 7 then put ") &= "
   else if p3 =? 8 then put ") ^= "
   else if p3 =? 9 then put ") <<= "
   else if p3 =? 10 then put ") >>= "
   else pure tt) ;;;
  if is_vars then
    p4 <- at_ p 4 ;;
    if p4 =? 0 then p5 <- at_ p 5 ;; put_int p5
    else if p4 =? 1 then
      put "Variable(" ;;; p5 <- at_ p 5 ;; put_int p5 ;;; put ")"
    else if p4 =? 2 then
      put "Variable(at Variable(" ;;; p5 <- at_ p 5 ;; put_int p5 ;;; put "))"
    else put "..."
  else
    p3' <- at_ p 3 ;;
    if p3' <? 2 then p3'' <- at_ p 3 ;; d <- minus 1 p3'' ;; put_int d
    else put "toggle".

(** The one-character string holding a double quote. *)
Definition quote : string := String (ascii_of_N 34) EmptyString.

(** index.cpp:208-216. *)
Definition repr_default (codes : CodeTable) (cmd : EventCommand) : Stream unit :=
  match tag codes (code cmd) with
  | Some name => put name
  | None => undefined
  end ;;;
  put_parameters (parameters cmd) ;;;
  if negb (Pylcf.empty (string_ cmd)) then
    put (" " ++ quote)%string ;;; put (string_ cmd) ;;; put quote
  else pure tt.

(** The [switch (evcode)] of index.cpp:136-217, written as a chain of
    tests; its case labels are different values. *)
Definition repr_switch (codes : CodeTable) (cmd : EventCommand) : Stream unit :=
  let evcode := code cmd in
  if (evcode =? Comment codes) || (evcode =? Comment_2 codes) then
    put "# " ;;; put (string_ cmd)
  else if evcode =? ConditionalBranch codes then
    repr_conditional_branch (parameters cmd)
  else if (evcode =? ControlVars codes) || (evcode =? ControlSwitches codes) then
    repr_control (evcode =? ControlVars codes) (parameters cmd)
  else repr_default codes cmd.

(** The lambda of index.cpp:131-219: indentation, the switch, and
    [out.str()]. *)
Definition EventCommand_repr (codes : CodeTable) (cmd : EventCommand)
    : Outcome string :=
  match (put_indent (indent cmd) ;;; repr_switch codes cmd) EmptyString with
  | Value (_, out) => Value out
  | LengthError => LengthError
  | Undefined => Undefined
  end.

(** The case labels of the switch are pairwise different. *)
Definition distinct_codes (codes : CodeTable) : Prop :=
  List.NoDup [Comment codes; Comment_2 codes; ConditionalBranch codes;
              ControlVars codes; ControlSwitches codes].

(** The three codes whose branch indexes [parameters]. *)
Definition structured (codes : CodeTable) (c : Z) : Prop :=
  c = ConditionalBranch codes \/ c = ControlVars codes \/
  c = ControlSwitches codes.

(** A statement that only ever adds to the end of the stream. *)
Definition appends {A} (m : Stream A) : Prop :=
  forall (out : string) (a : A) (out' : string),
    m out = Value (a, out') -> exists s : string, out' = (out ++ s)%string.

(** ** [EventCommand.tag] (index.cpp:221-228) *)

(** An entry of [rpg::EventCommand::kCodeTags]. *)
Record Item := mkItem {
  name : string;
  value : Z
}.

(** The body of the loop: [eventcmdtag[item.name] = item.value] and
    then [eventcmdtag[py::int_(item.value)] = item.name].  A key or a
    value of the dict is a Python [str] ([inl]) or [int] ([inr]). *)
Definition add_item (d : gmap (string + Z) (string + Z)) (it : Item)
    : gmap (string + Z) (string + Z) :=
  <[inr (value it) := inl (name it)]> (<[inl (name it) := inr (value it)]> d).

Definition eventcmdtag (kCodeTags : list Item) : gmap (string + Z) (string + Z) :=
  fold_left add_item kCodeTags ∅.

(** ** A code table to run the repr on *)
Module Demo.

Definition codes : CodeTable :=
  {| Comment := 12410;
     Comment_2 := 22410;
     ConditionalBranch := 12010;
     ControlVars := 10220;
     ControlSwitches := 10210;
     tag := fun c => if c =? 10110 then Some "ShowMessage"
                     else if c =? 11410 then Some "Wait" else None |}.

Definition kCodeTags : list Item :=
  [ mkItem "ShowMessage" 10110; mkItem "Wait" 11410;
    mkItem "Comment" 12410 ].

Definition set_variable : EventCommand :=
  mkEventCommand 10220 1 "" [0; 5; 0; 1; 0; 7].

Definition comment : EventCommand := mkEventCommand 12410 2 "note" [].

Definition dedented : EventCommand := mkEventCommand 12410 (-1) "note" [].

Definition bare_branch : EventCommand := mkEventCommand 12010 0 "" [].

Definition wait : Item := mkItem "Wait" 11410.

End Demo.

End Bindings.

Module Pycast.

Local Set Warnings "-register-all".

(** ** [immutable_list_caster] (pycast.h:23-57) *)

(** The Python objects a caster is handed.  [PyStr], [PyBytes],
    [PyList] and [PyTuple] pass [PySequence_Check]. *)
Inductive handle :=
| PyNone
| PyInt (z : Z)
| PyBool (b : bool)
| PyStr (s : string)
| PyBytes (s : string)
| PyList (items : list handle)
| PyTuple (items : list handle).

(** [isinstance<sequence>(src)]. *)
Definition is_sequence (src : handle) : bool :=
  match src with
  | PyStr _ | PyBytes _ | PyList _ | PyTuple _ => true
  | _ => false
  end.

Definition is_bytes (src : handle) : bool :=
  match src with PyBytes _ => true | _ => false end.

Definition is_str (src : handle) : bool :=
  match src with PyStr _ => true | _ => false end.

Fixpoint chars (s : string) : list handle :=
  match s with
  | EmptyString => []
  | String c s' => PyStr (String c EmptyString) :: chars s'
  end.

Fixpoint bytes (s : string) : list handle :=
  match s with
  | EmptyString => []
  | String c s' => PyInt (Z.of_N (N_of_ascii c)) :: bytes s'
  end.

(** The elements that iterating a sequence yields; there are
    [s.size()] of them. *)
Definition elements (src : handle) : list handle :=
  match src with
  | PyList items | PyTuple items => items
  | PyStr s => chars s
  | PyBytes s => bytes s
  | _ => []
  end.

Section Caster.

(** The element caster [value_conv = make_caster<Value>]: [load] gives
    the converted element or fails, [cast] gives a Python object or a
    null handle.  [zero] is the element of a freshly sized [Type];
    [policy_override] is [return_value_policy_override<Value>::policy]. *)
Context {V Policy Parent : Type}.
Variable conv_load : handle -> bool -> option V.
Variable conv_cast : V -> Policy -> Parent -> option handle.
Variable zero : V.
Variable policy_override : Policy -> Policy.

(** The elements in front of the first one that does not convert,
    converted. *)
Fixpoint converted (its : list handle) (convert : bool) : list V :=
  match its with
  | [] => []
  | it :: its' =>
      match conv_load it convert with
      | Some x => x :: converted its' convert
      | None => []
      end
  end.

(** The loop of [load] (pycast.h:33-38), from position [index] on:
    the result is the return value, if the loop returns, and the
    [value] member. *)
Fixpoint load_elements (its : list handle) (convert : bool) (index : nat)
    (value : list V) : option bool * list V :=
  match its with
  | [] => (None, value)
  | it :: its' =>
      match conv_load it convert with
      | None => (Some false, value)
      | Some x => load_elements its' convert (S index) (<[index:=x]> value)
      end
  end.

(** [load] (pycast.h:27-40); [value] is the member before the call. *)
Definition load (value : list V) (src : handle) (convert : bool)
    : bool * list V :=
  if negb (is_sequence src) || is_bytes src || is_str src then (false, value)
  else
    let s := elements src in
    let value := replicate (length s) zero in
    match load_elements s convert 0 value with
    | (Some result, value') => (result, value')
    | (None, value') => (true, value')
    end.

(** The loop of [cast] (pycast.h:48-53) filling the list [l] from
    position [index] on; [None] is the early [return handle()]. *)
Fixpoint cast_elements (src : list V) (policy : Policy) (parent : Parent)
    (index : nat) (l : list handle) : option (list handle) :=
  match src with
  | [] => Some l
  | x :: src' =>
      match conv_cast x policy parent with
      | None => None
      | Some value_ =>
          cast_elements src' policy parent (S index) (<[index:=value_]> l)
      end
  end.

(** [cast] (pycast.h:42-55); [is_lvalue] is
    [std::is_lvalue_reference<T>::value]. *)
Definition cast (is_lvalue : bool) (src : list V) (policy : Policy)
    (parent : Parent) : option handle :=
  let policy := if negb is_lvalue then policy_override policy else policy in
  let l := replicate (length src) PyNone in
  match cast_elements src policy parent 0 l with
  | Some l' => Some (PyList l')
  | None => None
  end.

End Caster.

(** ** An element caster for integers *)
Module Demo.

Definition int_load (h : handle) (convert : bool) : option Z :=
  match h with
  | PyInt z => Some z
  | PyBool b => if convert then Some (Z.b2z b) else None
  | _ => None
  end.

Definition int_cast (z : Z) (policy parent : unit) : option handle :=
  Some (PyInt z).

End Demo.

End Pycast.

(** * Facts about the loaders of index.cpp *)

Module PylcfFacts.

Import Pylcf.
Local Open Scope string_scope.

Section Generic.

Context {Database TreeMap Map Save : Type}.
Variable env : Env Database TreeMap Map Save.

Lemma empty_true (s : string) : empty s = true <-> s = "".
Proof. destruct s; simpl; split; congruence. Qed.

Lemma auto_or_empty_true (s : string) :
  auto_or_empty s = true <-> s = "" \/ s = "auto".
Proof.
  unfold auto_or_empty. rewrite orb_true_iff, empty_true, String.eqb_eq. tauto.
Qed.

(** The probe loop written as a search: it stores and yields the first
    existing system path, and otherwise leaves everything as it was. *)
Lemma probe_candidates_hit (path name : string) (candidates : list string)
    (enc : string) (w : World) :
  probe_candidates env path name candidates enc w =
    match probe_hit env path name candidates with
    | Some system_path => Returns system_path (mkWorld system_path (calls w))
    | None => Returns enc w
    end.
Proof.
  unfold probe_hit. induction candidates as [|c rest IH]; simpl.
  - destruct (StringIsAscii name); reflexivity.
  - destruct (StringIsAscii name) eqn:Hn; simpl.
    + rewrite IH. reflexivity.
    + destruct (exists_ env (system_path_of env path name c)); [reflexivity|].
      exact IH.
Qed.

Ltac run :=
  unfold read_lcf, read_ldb, read_lmt, read_lmu, guess_and_reparse,
    settle_encoding, detect_encodings, load_ldb, load_lmt, load_lsd,
    load_lmu, encoding, bind, ret, get_parsed_encoding,
    set_parsed_encoding, emit, deref; simpl.

Lemma settle_encoding_run (candidates : list string) (enc : string) (w : World) :
  settle_encoding env candidates enc w =
    match candidates with
    | front :: _ =>
        if empty enc then Returns front (mkWorld front (calls w))
        else Returns enc w
    | [] =>
        Returns (if empty enc then ReaderUtil_GetLocaleEncoding env else enc) w
    end.
Proof.
  unfold settle_encoding. destruct candidates, (empty enc); reflexivity.
Qed.

(** What the detection block does once the first parse gave a record:
    it calls [DetectEncodings], then parses again with an encoding
    [resolved], leaving [stored] in [parsed_encoding]. *)
Lemma guess_and_reparse_run (path enc : string) (db : Database) (w : World) :
  let candidates := ReaderUtil_DetectEncodings env db in
  exists resolved stored : string,
    guess_and_reparse env path enc (Some db) w =
      Returns (LDB_Reader_Load env path resolved)
              (mkWorld stored
                 (calls w ++ [DetectEncodings; LDB_Load path resolved])) /\
    match probe_hit env path (system_name env db) candidates with
    | Some system_path =>
        resolved = stored /\
        (empty system_path = false -> resolved = system_path)
    | None =>
        match candidates with
        | front :: _ =>
            if empty enc then resolved = front /\ stored = front
            else resolved = enc /\ stored = parsed_encoding w
        | [] =>
            resolved = (if empty enc then ReaderUtil_GetLocaleEncoding env else enc) /\
            stored = parsed_encoding w
        end
    end.
Proof.
  intros candidates.
  unfold guess_and_reparse, detect_encodings, load_ldb, bind, emit, ret, deref.
  simpl. rewrite probe_candidates_hit. fold candidates.
  destruct (probe_hit env path (system_name env db) candidates) as [sp|] eqn:Hhit.
  - rewrite settle_encoding_run. simpl.
    destruct candidates as [|front rest].
    { unfold probe_hit in Hhit. simpl in Hhit.
      destruct (StringIsAscii _); discriminate. }
    destruct (empty sp) eqn:Hsp; simpl; rewrite <- app_assoc; simpl;
      do 2 eexists; (split; [reflexivity|]); split; congruence.
  - rewrite settle_encoding_run.
    destruct candidates as [|front rest]; [|destruct (empty enc)];
      simpl; rewrite <- app_assoc; simpl; do 2 eexists;
      (split; [reflexivity|]); split; reflexivity.
Qed.

(** C9.  [encoding("")] answers with the stored encoding and changes
    nothing; [encoding(e)] for a non-empty [e] stores [e] and answers
    with it. *)
Theorem encoding_reads_or_replaces (w : World) :
  encoding "" w = Returns (parsed_encoding w) w /\
  forall (c : ascii) (s : string),
    encoding (String c s) w =
      Returns (String c s) (mkWorld (String c s) (calls w)).
Proof. split; [reflexivity | intros c s; reflexivity]. Qed.

Lemma signatures_distinct : List.NoDup signatures.
Proof.
  unfold signatures. repeat constructor; simpl; intuition discriminate.
Qed.

Lemma not_signature (h : string) :
  ~ In h signatures ->
  (h =? sig_database) = false /\ (h =? sig_map_tree) = false /\
  (h =? sig_save_data) = false /\ (h =? sig_map_unit) = false.
Proof.
  intros H. repeat split; apply String.eqb_neq; intros ->; apply H; simpl; tauto.
Qed.


Lemma read_ldb_run (path enc : string) (w : World) :
  read_ldb env path enc w =
    let w1 := mkWorld (parsed_encoding w) (calls w ++ [LDB_Load path enc]) in
    if auto_or_empty enc
    then guess_and_reparse env path enc (LDB_Reader_Load env path enc) w1
    else Returns (LDB_Reader_Load env path enc) w1.
Proof.
  unfold read_ldb, load_ldb, bind, emit, ret. simpl.
  destruct (auto_or_empty enc); reflexivity.
Qed.

Lemma read_lcf_database_run (path_or_id : PathOrId) (enc : string) (w : World) :
  let path := resolve_path path_or_id in
  read_header (file_content env path) = sig_database ->
  read_lcf env path_or_id enc w =
    let e := if auto_or_empty enc then parsed_encoding w else enc in
    let w1 := mkWorld (parsed_encoding w) (calls w ++ [LDB_Load path e]) in
    if auto_or_empty e
    then match guess_and_reparse env path e (LDB_Reader_Load env path e) w1 with
         | Returns db' w' => Returns (ObjDatabase db') w'
         | NullDeref w' => NullDeref w'
         end
    else Returns (ObjDatabase (LDB_Reader_Load env path e)) w1.
Proof.
  intros path H. unfold read_lcf. fold path. rewrite H. simpl.
  unfold load_ldb, bind, emit, ret, get_parsed_encoding. simpl.
  destruct (auto_or_empty (if auto_or_empty enc then parsed_encoding w else enc));
    reflexivity.
Qed.

Lemma read_lcf_other_run (path_or_id : PathOrId) (enc : string) (w : World) :
  let path := resolve_path path_or_id in
  let header := read_header (file_content env path) in
  header <> sig_database ->
  let e0 := if auto_or_empty enc then parsed_encoding w else enc in
  let e := if empty e0 then ReaderUtil_GetLocaleEncoding env else e0 in
  exists obj c,
    read_lcf env path_or_id enc w =
      Returns obj (mkWorld (parsed_encoding w) (calls w ++ [c])) /\
    (c = LMT_Load path e \/ c = LSD_Load path e \/ c = LMU_Load path e \/
     c = Print path).
Proof.
  intros path header H e0 e. apply String.eqb_neq in H.
  unfold read_lcf. fold path. fold header. rewrite H.
  unfold load_lmt, load_lsd, load_lmu, bind, emit, ret, get_parsed_encoding.
  simpl. fold e0. fold e.
  destruct (header =? sig_map_tree); [|destruct (header =? sig_save_data);
    [|destruct (header =? sig_map_unit)]]; do 2 eexists;
    (split; [reflexivity|]); tauto.
Qed.

(** C3.  [read_lcf] compares the ten header bytes with four ASCII
    literals that differ from one another, and the literal that matches
    selects the reader.  The map-tree, save and map-unit literals make
    one call of the reader of that kind, with the encoding in effect,
    and return what it returns.  The database literal makes the first
    call of the database reader: the only call, whose record is
    returned, when the encoding in effect is neither empty nor
    ["auto"]; otherwise the detection block follows, which dereferences
    the record and ends with a second call of the database reader,
    whose record is returned.  A header equal to none of the four
    makes the loader print the path and return no record, with no
    reader called and the stored encoding untouched. *)
Theorem read_lcf_dispatches_on_signature
    (path_or_id : PathOrId) (enc : string) (w : World) :
  let path := resolve_path path_or_id in
  let header := read_header (file_content env path) in
  let e0 := if auto_or_empty enc then parsed_encoding w else enc in
  let e := if empty e0 then ReaderUtil_GetLocaleEncoding env else e0 in
  List.NoDup signatures /\
  forallb StringIsAscii signatures = true /\
  (header = sig_map_tree ->
     read_lcf env path_or_id enc w =
       Returns (ObjTreeMap (LMT_Reader_Load env path e))
               (mkWorld (parsed_encoding w) (calls w ++ [LMT_Load path e]))) /\
  (header = sig_save_data ->
     read_lcf env path_or_id enc w =
       Returns (ObjSave (LSD_Reader_Load env path e))
               (mkWorld (parsed_encoding w) (calls w ++ [LSD_Load path e]))) /\
  (header = sig_map_unit ->
     read_lcf env path_or_id enc w =
       Returns (ObjMap (LMU_Reader_Load env path e))
               (mkWorld (parsed_encoding w) (calls w ++ [LMU_Load path e]))) /\
  (header = sig_database ->
     (auto_or_empty e0 = false ->
      read_lcf env path_or_id enc w =
        Returns (ObjDatabase (LDB_Reader_Load env path e0))
                (mkWorld (parsed_encoding w) (calls w ++ [LDB_Load path e0]))) /\
     (auto_or_empty e0 = true ->
      LDB_Reader_Load env path e0 = None ->
      read_lcf env path_or_id enc w =
        NullDeref (mkWorld (parsed_encoding w)
                     (calls w ++ [LDB_Load path e0]))) /\
     (auto_or_empty e0 = true ->
      forall db : Database,
        LDB_Reader_Load env path e0 = Some db ->
        exists resolved stored : string,
          read_lcf env path_or_id enc w =
            Returns (ObjDatabase (LDB_Reader_Load env path resolved))
                    (mkWorld stored
                       (calls w ++ [LDB_Load path e0; DetectEncodings;
                                    LDB_Load path resolved])))) /\
  (~ In header signatures ->
     read_lcf env path_or_id enc w =
       Returns ObjNone
               (mkWorld (parsed_encoding w) (calls w ++ [Print path]))).
Proof.
  intros path header e0 e. split; [exact signatures_distinct|].
  split; [reflexivity|].
  split; [|split; [|split; [|split]]].
  - intros H. unfold read_lcf. fold path header. rewrite H. reflexivity.
  - intros H. unfold read_lcf. fold path header. rewrite H. reflexivity.
  - intros H. unfold read_lcf. fold path header. rewrite H. reflexivity.
  - intros H. rewrite (read_lcf_database_run path_or_id enc w H).
    cbn zeta. fold path e0. split; [|split].
    + intros He. rewrite He. reflexivity.
    + intros He Hnull. rewrite He, Hnull. reflexivity.
    + intros He db Hdb. rewrite He, Hdb.
      destruct (guess_and_reparse_run path e0 db
                  (mkWorld (parsed_encoding w) (calls w ++ [LDB_Load path e0])))
        as (resolved & stored & -> & _).
      exists resolved, stored. simpl. rewrite <- app_assoc. reflexivity.
  - intros H. apply not_signature in H as (H1 & H2 & H3 & H4).
    unfold read_lcf. fold path header. rewrite H1, H2, H3, H4. reflexivity.
Qed.

(** With an empty parameter and no probe hit the block takes the first
    candidate, and the locale's encoding when there is none. *)
Lemma empty_parameter_takes_first_candidate (path : string) (db : Database)
    (w : World) :
  let candidates := ReaderUtil_DetectEncodings env db in
  probe_hit env path (system_name env db) candidates = None ->
  exists resolved stored : string,
    guess_and_reparse env path "" (Some db) w =
      Returns (LDB_Reader_Load env path resolved)
              (mkWorld stored
                 (calls w ++ [DetectEncodings; LDB_Load path resolved])) /\
    match candidates with
    | front :: _ => resolved = front /\ stored = front
    | [] => resolved = ReaderUtil_GetLocaleEncoding env /\
            stored = parsed_encoding w
    end.
Proof.
  intros candidates Hmiss.
  destruct (guess_and_reparse_run path "" db w)
    as (resolved & stored & Hrun & Hcase).
  fold candidates in Hcase. rewrite Hmiss in Hcase.
  exists resolved, stored. split; [exact Hrun|].
  destruct candidates; exact Hcase.
Qed.

(** C2, amended.  With an empty or ["auto"] encoding parameter,
    [read_ldb] runs detection whatever is stored: once the first parse
    gives a record it asks for the candidates and parses a second time.
    [read_lcf] on a database file first replaces the parameter by the
    stored encoding: it runs detection the same way when the stored
    encoding is itself empty or ["auto"], and otherwise parses once,
    with the stored encoding, and detects nothing. *)
Theorem detection_on_auto_parameter (path enc : string) (w : World) :
  auto_or_empty enc = true ->
  (forall db : Database,
     LDB_Reader_Load env path enc = Some db ->
     exists resolved stored : string,
       read_ldb env path enc w =
         Returns (LDB_Reader_Load env path resolved)
           (mkWorld stored
              (calls w ++
               [LDB_Load path enc; DetectEncodings; LDB_Load path resolved]))) /\
  (forall path_or_id : PathOrId,
     resolve_path path_or_id = path ->
     read_header (file_content env path) = sig_database ->
     let cached := parsed_encoding w in
     (auto_or_empty cached = true ->
      forall db : Database,
        LDB_Reader_Load env path cached = Some db ->
        exists resolved stored : string,
          read_lcf env path_or_id enc w =
            Returns (ObjDatabase (LDB_Reader_Load env path resolved))
              (mkWorld stored
                 (calls w ++
                  [LDB_Load path cached; DetectEncodings;
                   LDB_Load path resolved]))) /\
     (auto_or_empty cached = false ->
      read_lcf env path_or_id enc w =
        Returns (ObjDatabase (LDB_Reader_Load env path cached))
          (mkWorld cached (calls w ++ [LDB_Load path cached])))).
Proof.
  intros Henc. split.
  - intros db Hdb. rewrite read_ldb_run, Henc, Hdb. simpl.
    destruct (guess_and_reparse_run path enc db
                (mkWorld (parsed_encoding w) (calls w ++ [LDB_Load path enc])))
      as (resolved & stored & -> & _).
    exists resolved, stored. simpl. rewrite <- app_assoc. reflexivity.
  - intros path_or_id <- Hh cached. split.
    + intros Hc db Hdb. rewrite read_lcf_database_run by exact Hh.
      rewrite Henc. simpl. fold cached. rewrite Hc, Hdb.
      destruct (guess_and_reparse_run (resolve_path path_or_id) cached db
                  (mkWorld cached
                     (calls w ++ [LDB_Load (resolve_path path_or_id) cached])))
        as (resolved & stored & -> & _).
      exists resolved, stored. simpl. rewrite <- app_assoc. reflexivity.
    + intros Hc. rewrite read_lcf_database_run by exact Hh.
      rewrite Henc. simpl. fold cached. rewrite Hc. reflexivity.
Qed.

(** What the detection block parses with, and what it leaves in
    [parsed_encoding], does not depend on what was stored before,
    except that a block that stores nothing leaves it as it was. *)
Lemma guess_and_reparse_ignores_stored (path enc : string)
    (db : option Database) (w : World) (other : string) :
  match guess_and_reparse env path enc db w,
        guess_and_reparse env path enc db (mkWorld other (calls w)) with
  | Returns db1 w1, Returns db2 w2 =>
      db1 = db2 /\ calls w1 = calls w2 /\
      (parsed_encoding w1 = parsed_encoding w2 \/
       parsed_encoding w1 = parsed_encoding w /\ parsed_encoding w2 = other)
  | NullDeref w1, NullDeref w2 =>
      calls w1 = calls w2 /\
      parsed_encoding w1 = parsed_encoding w /\ parsed_encoding w2 = other
  | _, _ => False
  end.
Proof.
  destruct db as [db|]; [|simpl; auto].
  unfold guess_and_reparse, detect_encodings, load_ldb, bind, emit, ret, deref.
  simpl. rewrite !probe_candidates_hit.
  destruct (probe_hit env path (system_name env db)
              (ReaderUtil_DetectEncodings env db)) as [sp|];
    rewrite !settle_encoding_run;
    destruct (ReaderUtil_DetectEncodings env db) as [|front rest];
    [destruct (empty sp) | destruct (empty sp)
    | destruct (empty enc) | destruct (empty enc)];
    simpl; auto.
Qed.

(** C8, amended.  A database read that runs detection ([read_ldb]
    with an empty or ["auto"] parameter; [read_lcf] on a database
    file when the parameter and the stored encoding are both empty or
    ["auto"]) leaves the encoding of its second parse in
    [parsed_encoding] when the hint-file probe finds a file, or when
    the encoding is empty and there is a candidate; when the encoding
    is empty and there is no candidate, the second parse is made with
    the locale's encoding and [parsed_encoding] stays as it was.
    [read_ldb] does not consult [parsed_encoding]: started with another
    stored encoding it returns the same record after the same calls.
    [read_lmt] and [read_lmu] pass the stored encoding to their reader
    when the parameter is empty or ["auto"], and the parameter
    otherwise; [read_lcf] on a file that is not a database does the
    same, with the locale's encoding in place of an empty one, and on
    a database file passes the stored encoding when that is neither
    empty nor ["auto"].  Whatever the parameter, the loads of
    non-database kinds make one call, never [DetectEncodings], and
    leave [parsed_encoding] unchanged. *)
Theorem stored_encoding_is_reused (w : World) :
  let cached := parsed_encoding w in
  let locale := ReaderUtil_GetLocaleEncoding env in
  (forall (path enc : string) (db : Database),
     auto_or_empty enc = true ->
     LDB_Reader_Load env path enc = Some db ->
     let candidates := ReaderUtil_DetectEncodings env db in
     (probe_hit env path (system_name env db) candidates <> None \/
      (enc = "" /\ candidates <> []) ->
      exists resolved : string,
        read_ldb env path enc w =
          Returns (LDB_Reader_Load env path resolved)
            (mkWorld resolved
               (calls w ++ [LDB_Load path enc; DetectEncodings;
                            LDB_Load path resolved]))) /\
     (enc = "" -> candidates = [] ->
      read_ldb env path enc w =
        Returns (LDB_Reader_Load env path locale)
          (mkWorld cached
             (calls w ++ [LDB_Load path enc; DetectEncodings;
                          LDB_Load path locale])))) /\
  (forall (path_or_id : PathOrId) (enc : string) (db : Database),
     let path := resolve_path path_or_id in
     read_header (file_content env path) = sig_database ->
     auto_or_empty enc = true ->
     auto_or_empty cached = true ->
     LDB_Reader_Load env path cached = Some db ->
     let candidates := ReaderUtil_DetectEncodings env db in
     (probe_hit env path (system_name env db) candidates <> None \/
      (cached = "" /\ candidates <> []) ->
      exists resolved : string,
        read_lcf env path_or_id enc w =
          Returns (ObjDatabase (LDB_Reader_Load env path resolved))
            (mkWorld resolved
               (calls w ++ [LDB_Load path cached; DetectEncodings;
                            LDB_Load path resolved]))) /\
     (cached = "" -> candidates = [] ->
      read_lcf env path_or_id enc w =
        Returns (ObjDatabase (LDB_Reader_Load env path locale))
          (mkWorld cached
             (calls w ++ [LDB_Load path cached; DetectEncodings;
                          LDB_Load path locale])))) /\
  (forall path enc other : string,
     match read_ldb env path enc w,
           read_ldb env path enc (mkWorld other (calls w)) with
     | Returns db1 w1, Returns db2 w2 =>
         db1 = db2 /\ calls w1 = calls w2 /\
         (parsed_encoding w1 = parsed_encoding w2 \/
          parsed_encoding w1 = cached /\ parsed_encoding w2 = other)
     | NullDeref w1, NullDeref w2 =>
         calls w1 = calls w2 /\
         parsed_encoding w1 = cached /\ parsed_encoding w2 = other
     | _, _ => False
     end) /\
  (forall path enc : string,
     let e := if auto_or_empty enc then cached else enc in
     read_lmt env path enc w =
       Returns (LMT_Reader_Load env path e)
         (mkWorld cached (calls w ++ [LMT_Load path e]))) /\
  (forall (path_or_id : PathOrId) (enc : string),
     let path := resolve_path path_or_id in
     let e := if auto_or_empty enc then cached else enc in
     read_lmu env path_or_id enc w =
       Returns (LMU_Reader_Load env path e)
         (mkWorld cached (calls w ++ [LMU_Load path e]))) /\
  (forall (path_or_id : PathOrId) (enc : string),
     let path := resolve_path path_or_id in
     read_header (file_content env path) <> sig_database ->
     let e0 := if auto_or_empty enc then cached else enc in
     let e := if empty e0 then locale else e0 in
     exists obj c,
       read_lcf env path_or_id enc w =
         Returns obj (mkWorld cached (calls w ++ [c])) /\
       (c = LMT_Load path e \/ c = LSD_Load path e \/ c = LMU_Load path e \/
        c = Print path)) /\
  (forall (path_or_id : PathOrId) (enc : string),
     auto_or_empty enc = true ->
     let path := resolve_path path_or_id in
     read_header (file_content env path) = sig_database ->
     auto_or_empty cached = false ->
     read_lcf env path_or_id enc w =
       Returns (ObjDatabase (LDB_Reader_Load env path cached))
         (mkWorld cached (calls w ++ [LDB_Load path cached]))).
Proof.
  intros cached locale.
  assert (Hblock : forall (path e : string) (db : Database) (w1 : World),
    parsed_encoding w1 = cached ->
    let candidates := ReaderUtil_DetectEncodings env db in
    (probe_hit env path (system_name env db) candidates <> None \/
     (e = "" /\ candidates <> []) ->
     exists resolved : string,
       guess_and_reparse env path e (Some db) w1 =
         Returns (LDB_Reader_Load env path resolved)
           (mkWorld resolved
              (calls w1 ++ [DetectEncodings; LDB_Load path resolved]))) /\
    (e = "" -> candidates = [] ->
     guess_and_reparse env path e (Some db) w1 =
       Returns (LDB_Reader_Load env path locale)
         (mkWorld cached
            (calls w1 ++ [DetectEncodings; LDB_Load path locale])))).
  { intros path e db w1 Hw1 candidates.
    destruct (guess_and_reparse_run path e db w1)
      as (resolved & stored & Hrun & Hcase).
    fold candidates in Hcase. rewrite Hrun. split.
    - intros H. exists resolved.
      destruct (probe_hit env path (system_name env db) candidates).
      + destruct Hcase as [-> _]. reflexivity.
      + destruct H as [H|[-> H]]; [congruence|].
        destruct candidates; [congruence|]. simpl in Hcase.
        destruct Hcase as [-> ->]. reflexivity.
    - intros -> Hnone. rewrite Hnone in Hcase.
      replace (probe_hit env path (system_name env db) [])
        with (@None string) in Hcase
        by (unfold probe_hit; destruct (StringIsAscii _); reflexivity).
      simpl in Hcase. destruct Hcase as [-> ->]. rewrite Hw1. reflexivity. }
  split; [|split; [|split; [|split; [|split; [|split]]]]].
  - intros path enc db Henc Hdb candidates.
    rewrite read_ldb_run, Henc, Hdb. cbn zeta.
    destruct (Hblock path enc db
                (mkWorld (parsed_encoding w) (calls w ++ [LDB_Load path enc]))
                eq_refl) as [Hstore Hlocale].
    fold candidates in Hstore, Hlocale. split.
    + intros H. destruct (Hstore H) as (resolved & ->).
      exists resolved. simpl. rewrite <- app_assoc. reflexivity.
    + intros He Hnone. rewrite (Hlocale He Hnone).
      simpl. rewrite <- app_assoc. reflexivity.
  - intros path_or_id enc db path Hh Henc Hc Hdb candidates.
    rewrite (read_lcf_database_run path_or_id enc w Hh). cbn zeta.
    rewrite Henc. fold cached path. rewrite Hc, Hdb.
    destruct (Hblock path cached db
                (mkWorld cached (calls w ++ [LDB_Load path cached]))
                eq_refl) as [Hstore Hlocale].
    fold candidates in Hstore, Hlocale. split.
    + intros H. destruct (Hstore H) as (resolved & ->).
      exists resolved. simpl. rewrite <- app_assoc. reflexivity.
    + intros He Hnone. rewrite (Hlocale He Hnone).
      simpl. rewrite <- app_assoc. reflexivity.
  - intros path enc other. rewrite !read_ldb_run. cbn zeta.
    destruct (auto_or_empty enc).
    + exact (guess_and_reparse_ignores_stored path enc
               (LDB_Reader_Load env path enc)
               (mkWorld (parsed_encoding w) (calls w ++ [LDB_Load path enc]))
               other).
    + simpl. auto.
  - intros path enc e. reflexivity.
  - intros path_or_id enc path e. reflexivity.
  - intros path_or_id enc path Hh e0 e.
    exact (read_lcf_other_run path_or_id enc w Hh).
  - intros path_or_id enc Henc path Hh Hc.
    rewrite read_lcf_database_run by exact Hh. rewrite Henc. simpl.
    fold cached. rewrite Hc. reflexivity.
Qed.

End Generic.

(** C10 as stated fails: a five-digit id is written in full, so the
    text between [Map] and [.lmu] is not four characters long. *)
Lemma map_path_five_digit_id :
  map_path 12345 = "Map12345.lmu" /\
  ~ (exists d : string,
       String.length d = 4%nat /\ map_path 12345 = "Map" ++ d ++ ".lmu").
Proof.
  split; [reflexivity|].
  intros (d & Hd & H).
  destruct d as [|a [|b [|c [|e [|f d]]]]]; simpl in Hd; try discriminate Hd.
  discriminate H.
Qed.

Lemma four_digit_paths_checked :
  forallb four_digit_path_b (seq 0 (Z.to_nat 10000)) = true.
Proof. vm_compute. reflexivity. Qed.

(** C10, amended.  For an id from 0 to 9999 the path read by [read_lmu]
    and [read_lcf] is [Map], the id as exactly four decimal digits with
    leading zeros, and [.lmu]. *)
Theorem map_path_four_digits (id : Z) :
  (0 <= id <= 9999)%Z ->
  resolve_path (Id id) = "Map" ++ four_digits id ++ ".lmu".
Proof.
  intros Hid. simpl.
  pose proof four_digit_paths_checked as H.
  rewrite forallb_forall in H.
  specialize (H (Z.to_nat id)).
  unfold four_digit_path_b in H. rewrite Z2Nat.id in H by lia.
  apply String.eqb_eq, H, in_seq. lia.
Qed.

Lemma map_path_four_digits_witness :
  (0 <= 1 <= 9999)%Z /\ resolve_path (Id 1) = "Map0001.lmu".
Proof. split; [lia | apply (map_path_four_digits 1); lia]. Defined.

(** ** The loaders run on the demo tree *)

Lemma read_lcf_dispatches_on_signature_witness :
  ~ In (read_header (file_content Demo.env "/game/readme.txt")) signatures /\
  read_lcf Demo.env (Path "/game/readme.txt") "" initial_world =
    Returns ObjNone (mkWorld "" [Print "/game/readme.txt"]) /\
  read_lcf Demo.env (Path "/game/Save01.lsd") "" initial_world =
    Returns (ObjSave (LSD_Reader_Load Demo.env "/game/Save01.lsd" "UTF-8"))
      (mkWorld "" [LSD_Load "/game/Save01.lsd" "UTF-8"]) /\
  read_lcf Demo.env (Path Demo.game_ldb) "shift_jis" initial_world =
    Returns (ObjDatabase (LDB_Reader_Load Demo.env Demo.game_ldb "shift_jis"))
      (mkWorld "" [LDB_Load Demo.game_ldb "shift_jis"]) /\
  read_lcf Demo.env (Path "/nowhere/RPG_RT.ldb") "" initial_world =
    Returns ObjNone (mkWorld "" [Print "/nowhere/RPG_RT.ldb"]).
Proof.
  assert (Hno : ~ In (read_header (file_content Demo.env "/game/readme.txt"))
                     signatures).
  { vm_compute. intuition discriminate. }
  assert (Hmissing :
            ~ In (read_header (file_content Demo.env "/nowhere/RPG_RT.ldb"))
                 signatures).
  { vm_compute. intuition discriminate. }
  destruct (read_lcf_dispatches_on_signature Demo.env
              (Path "/game/readme.txt") "" initial_world)
    as (_ & _ & _ & _ & _ & _ & Hnone).
  destruct (read_lcf_dispatches_on_signature Demo.env
              (Path "/game/Save01.lsd") "" initial_world)
    as (_ & _ & _ & Hsave & _).
  destruct (read_lcf_dispatches_on_signature Demo.env
              (Path Demo.game_ldb) "shift_jis" initial_world)
    as (_ & _ & _ & _ & _ & Hdb & _).
  destruct (read_lcf_dispatches_on_signature Demo.env
              (Path "/nowhere/RPG_RT.ldb") "" initial_world)
    as (_ & _ & _ & _ & _ & _ & Hnone').
  split; [exact Hno|]. split; [exact (Hnone Hno)|].
  split; [exact (Hsave eq_refl)|].
  split; [exact (proj1 (Hdb eq_refl) eq_refl)|].
  exact (Hnone' Hmissing).
Defined.

(** C1.  On [/game] the probe succeeds for the first candidate,
    [ibm-943_P15A-2003]; what [read_ldb] and [read_lcf] then store and
    parse with is the path of the system file, not that candidate. *)
Theorem probe_success_stores_system_path :
  ReaderUtil_DetectEncodings Demo.env (Demo.mkDb Demo.game_ldb "") =
    ["ibm-943_P15A-2003"; "windows-1252"] /\
  exists_ Demo.env
    (system_path_of Demo.env Demo.game_ldb Demo.nonascii_name "ibm-943_P15A-2003")
    = true /\
  read_ldb Demo.env Demo.game_ldb "" initial_world =
    Returns (Some (Demo.mkDb Demo.game_ldb Demo.game_system_file))
      (mkWorld Demo.game_system_file
         [LDB_Load Demo.game_ldb ""; DetectEncodings;
          LDB_Load Demo.game_ldb Demo.game_system_file]) /\
  read_lcf Demo.env (Path Demo.game_ldb) "" initial_world =
    Returns (ObjDatabase (Some (Demo.mkDb Demo.game_ldb Demo.game_system_file)))
      (mkWorld Demo.game_system_file
         [LDB_Load Demo.game_ldb ""; DetectEncodings;
          LDB_Load Demo.game_ldb Demo.game_system_file]) /\
  Demo.game_system_file <> "ibm-943_P15A-2003".
Proof. repeat split; try reflexivity. discriminate. Qed.

(** C2 as stated fails for [read_lcf]: with [shift_jis] stored, a
    database load with an empty parameter parses once with [shift_jis]
    and never calls [DetectEncodings]. *)
Lemma read_lcf_skips_detection_when_cached :
  read_header (file_content Demo.env Demo.game_ldb) = sig_database /\
  read_lcf Demo.env (Path Demo.game_ldb) "" (mkWorld "shift_jis" []) =
    Returns (ObjDatabase (Some (Demo.mkDb Demo.game_ldb "shift_jis")))
      (mkWorld "shift_jis" [LDB_Load Demo.game_ldb "shift_jis"]) /\
  ~ In DetectEncodings [LDB_Load Demo.game_ldb "shift_jis"].
Proof.
  repeat split; try reflexivity. simpl. intuition discriminate.
Qed.

Lemma detection_on_auto_parameter_witness :
  (exists resolved stored : string,
     read_ldb Demo.env Demo.game_ldb "auto" (mkWorld "shift_jis" []) =
       Returns (LDB_Reader_Load Demo.env Demo.game_ldb resolved)
         (mkWorld stored
            [LDB_Load Demo.game_ldb "auto"; DetectEncodings;
             LDB_Load Demo.game_ldb resolved])) /\
  read_lcf Demo.env (Path Demo.game_ldb) "auto" (mkWorld "shift_jis" []) =
    Returns (ObjDatabase (LDB_Reader_Load Demo.env Demo.game_ldb "shift_jis"))
      (mkWorld "shift_jis" [LDB_Load Demo.game_ldb "shift_jis"]) /\
  (exists resolved stored : string,
     read_lcf Demo.env (Path Demo.game_ldb) "" initial_world =
       Returns (ObjDatabase (LDB_Reader_Load Demo.env Demo.game_ldb resolved))
         (mkWorld stored
            [LDB_Load Demo.game_ldb ""; DetectEncodings;
             LDB_Load Demo.game_ldb resolved])).
Proof.
  destruct (detection_on_auto_parameter Demo.env Demo.game_ldb "auto"
              (mkWorld "shift_jis" []) eq_refl) as [Hldb Hlcf].
  destruct (Hlcf (Path Demo.game_ldb) eq_refl eq_refl) as [_ Hcached].
  destruct (detection_on_auto_parameter Demo.env Demo.game_ldb ""
              initial_world eq_refl) as [_ Hlcf'].
  destruct (Hlcf' (Path Demo.game_ldb) eq_refl eq_refl) as [Hdetect _].
  split; [exact (Hldb _ eq_refl)|].
  split; [exact (Hcached eq_refl)|].
  exact (Hdetect eq_refl _ eq_refl).
Defined.

(** C4.  On [/plain] the system name is ASCII, so the probe resolves
    nothing, and there is a candidate; with the parameter ["auto"] (or
    ["auto"] stored, for [read_lcf]) the second parse is made with
    ["auto"], not with the candidate. *)
Theorem auto_parameter_ignores_candidates :
  ReaderUtil_DetectEncodings Demo.env (Demo.mkDb Demo.plain_ldb "auto") =
    ["windows-1252"] /\
  probe_hit Demo.env Demo.plain_ldb
    (system_name Demo.env (Demo.mkDb Demo.plain_ldb "auto")) ["windows-1252"] = None /\
  read_ldb Demo.env Demo.plain_ldb "auto" initial_world =
    Returns (Some (Demo.mkDb Demo.plain_ldb "auto"))
      (mkWorld ""
         [LDB_Load Demo.plain_ldb "auto"; DetectEncodings;
          LDB_Load Demo.plain_ldb "auto"]) /\
  read_lcf Demo.env (Path Demo.plain_ldb) "" (mkWorld "auto" []) =
    Returns (ObjDatabase (Some (Demo.mkDb Demo.plain_ldb "auto")))
      (mkWorld "auto"
         [LDB_Load Demo.plain_ldb "auto"; DetectEncodings;
          LDB_Load Demo.plain_ldb "auto"]).
Proof. repeat split; reflexivity. Qed.

(** C8 as stated fails: on [/bare] detection finds no candidate and
    resolves to the locale's encoding, which is used for the second
    parse but not stored; the map-tree load that follows is handed the
    empty encoding. *)
Lemma locale_fallback_is_not_stored :
  (_ <- read_ldb Demo.env Demo.bare_ldb "" ;;
   read_lmt Demo.env "/game/RPG_RT.lmt" "") initial_world =
    Returns (Some ("/game/RPG_RT.lmt", ""))
      (mkWorld ""
         [LDB_Load Demo.bare_ldb ""; DetectEncodings; LDB_Load Demo.bare_ldb "UTF-8";
          LMT_Load "/game/RPG_RT.lmt" ""]) /\
  "UTF-8" <> "".
Proof. split; [reflexivity | discriminate]. Qed.

Lemma stored_encoding_is_reused_witness :
  (exists resolved : string,
     read_ldb Demo.env Demo.plain_ldb "" initial_world =
       Returns (LDB_Reader_Load Demo.env Demo.plain_ldb resolved)
         (mkWorld resolved
            [LDB_Load Demo.plain_ldb ""; DetectEncodings;
             LDB_Load Demo.plain_ldb resolved])) /\
  read_ldb Demo.env Demo.bare_ldb "" (mkWorld "" []) =
    Returns (LDB_Reader_Load Demo.env Demo.bare_ldb "UTF-8")
      (mkWorld ""
         [LDB_Load Demo.bare_ldb ""; DetectEncodings;
          LDB_Load Demo.bare_ldb "UTF-8"]) /\
  (exists resolved : string,
     read_lcf Demo.env (Path Demo.game_ldb) "auto" initial_world =
       Returns (ObjDatabase (LDB_Reader_Load Demo.env Demo.game_ldb resolved))
         (mkWorld resolved
            [LDB_Load Demo.game_ldb ""; DetectEncodings;
             LDB_Load Demo.game_ldb resolved])) /\
  read_lmt Demo.env "/game/RPG_RT.lmt" "auto" (mkWorld "windows-1252" []) =
    Returns (Some ("/game/RPG_RT.lmt", "windows-1252"))
      (mkWorld "windows-1252" [LMT_Load "/game/RPG_RT.lmt" "windows-1252"]) /\
  read_lmu Demo.env (Id 1) "" (mkWorld "windows-1252" []) =
    Returns (LMU_Reader_Load Demo.env "Map0001.lmu" "windows-1252")
      (mkWorld "windows-1252" [LMU_Load "Map0001.lmu" "windows-1252"]) /\
  (exists obj c,
     read_lcf Demo.env (Path "/game/Save01.lsd") "" (mkWorld "windows-1252" []) =
       Returns obj (mkWorld "windows-1252" [c]) /\
     (c = LMT_Load "/game/Save01.lsd" "windows-1252" \/
      c = LSD_Load "/game/Save01.lsd" "windows-1252" \/
      c = LMU_Load "/game/Save01.lsd" "windows-1252" \/
      c = Print "/game/Save01.lsd")) /\
  read_lcf Demo.env (Path Demo.game_ldb) "" (mkWorld "windows-1252" []) =
    Returns (ObjDatabase (LDB_Reader_Load Demo.env Demo.game_ldb "windows-1252"))
      (mkWorld "windows-1252" [LDB_Load Demo.game_ldb "windows-1252"]).
Proof.
  destruct (stored_encoding_is_reused Demo.env initial_world)
    as (Hldb & Hlcf & _).
  destruct (stored_encoding_is_reused Demo.env (mkWorld "windows-1252" []))
    as (_ & _ & _ & Hlmt & Hlmu & Hother & Hdb).
  split.
  { apply (proj1 (Hldb Demo.plain_ldb "" (Demo.mkDb Demo.plain_ldb "")
                    eq_refl eq_refl)).
    right. split; [reflexivity | discriminate]. }
  split.
  { exact (proj2 (Hldb Demo.bare_ldb "" (Demo.mkDb Demo.bare_ldb "")
                    eq_refl eq_refl) eq_refl eq_refl). }
  split.
  { apply (proj1 (Hlcf (Path Demo.game_ldb) "auto"
                    (Demo.mkDb Demo.game_ldb "") eq_refl eq_refl eq_refl
                    eq_refl)).
    left. discriminate. }
  split; [exact (Hlmt "/game/RPG_RT.lmt" "auto")|].
  split; [exact (Hlmu (Id 1) "")|].
  split.
  { apply (Hother (Path "/game/Save01.lsd") ""). discriminate. }
  exact (Hdb (Path Demo.game_ldb) "" eq_refl eq_refl eq_refl).
Defined.

End PylcfFacts.

(** * Facts about the chunk codec *)

Module CodecFacts.

Import Codec.
Local Open Scope N_scope.

(** ** Bytes and varints *)

Lemma to_N_byte_of_N (n : N) : n < 256 -> Byte.to_N (byte_of_N n) = n.
Proof.
  intros H. unfold byte_of_N.
  destruct (Byte.of_N n) as [b|] eqn:E.
  - apply Byte.to_of_N, E.
  - apply Byte.of_N_None_iff in E. lia.
Qed.

Lemma to_N_lt_256 (b : byte) : Byte.to_N b < 256.
Proof. pose proof (Byte.to_N_bounded b). lia. Qed.

Lemma int_limit_pos : 0 < int_limit.
Proof. reflexivity. Qed.

Lemma encode_varint_aux_S (fuel : nat) (v : N) :
  encode_varint_aux (S fuel) v =
    if v <? 128 then [byte_of_N v]
    else byte_of_N (128 + v mod 128) :: encode_varint_aux fuel (v / 128).
Proof. reflexivity. Qed.

Lemma decode_varint_aux_encode (fuel : nat) :
  forall (v shift acc : N) (rest : list byte),
    v < 128 ^ N.of_nat (S fuel) ->
    acc + v * 2 ^ shift < int_limit ->
    decode_varint_aux shift acc (encode_varint_aux (S fuel) v ++ rest) =
      Ok (acc + v * 2 ^ shift, rest).
Proof.
  induction fuel as [|fuel IH]; intros v shift acc rest Hv Hlim.
  - change (128 ^ N.of_nat 1) with 128 in Hv.
    simpl. apply N.ltb_lt in Hv as Hv'. rewrite Hv'. simpl.
    rewrite to_N_byte_of_N by lia.
    rewrite (N.mod_small v 128) by lia.
    apply N.leb_gt in Hlim as ->. rewrite Hv'. reflexivity.
  - rewrite encode_varint_aux_S. destruct (v <? 128) eqn:Hsmall.
    + apply N.ltb_lt in Hsmall. simpl.
      rewrite to_N_byte_of_N by lia.
      rewrite (N.mod_small v 128) by lia.
      apply N.leb_gt in Hlim as ->.
      apply N.ltb_lt in Hsmall as ->. reflexivity.
    + apply N.ltb_ge in Hsmall.
      pose proof (N.mod_lt v 128 ltac:(lia)) as Hmod.
      pose proof (N.div_mod v 128 ltac:(lia)) as Hdm.
      cbn [app decode_varint_aux].
      rewrite to_N_byte_of_N by lia.
      replace ((128 + v mod 128) mod 128) with (v mod 128).
      2:{ apply N.mod_unique with (q := 1); lia. }
      assert (Hpow : 2 ^ (shift + 7) = 128 * 2 ^ shift).
      { rewrite N.pow_add_r. change (2 ^ 7) with 128. lia. }
      assert (Hsum : acc + v mod 128 * 2 ^ shift + v / 128 * 2 ^ (shift + 7)
                     = acc + v * 2 ^ shift).
      { rewrite Hpow. rewrite Hdm at 3. lia. }
      assert (Hle : acc + v mod 128 * 2 ^ shift < int_limit).
      { eapply N.le_lt_trans; [|exact Hlim]. rewrite <- Hsum. lia. }
      apply N.leb_gt in Hle as Hle'. rewrite Hle'.
      assert (Hbig : (128 + v mod 128 <? 128) = false) .
      { apply N.ltb_ge, N.le_add_r. }
      rewrite Hbig.
      rewrite IH.
      * rewrite Hsum. reflexivity.
      * apply N.Div0.div_lt_upper_bound.
        rewrite Nat2N.inj_succ, N.pow_succ_r' in Hv. exact Hv.
      * rewrite Hsum. exact Hlim.
Qed.

Lemma lt_pow128_log2 (v : N) : v < 128 ^ N.of_nat (S (N.to_nat (N.log2 v))).
Proof.
  rewrite Nat2N.inj_succ, N2Nat.id.
  assert (H : v < 2 ^ N.succ (N.log2 v)).
  { destruct (N.eq_dec v 0) as [->|Hv]; [reflexivity|].
    apply N.log2_spec. lia. }
  eapply N.lt_le_trans; [exact H|].
  apply N.pow_le_mono_l. lia.
Qed.

Lemma decode_varint_encode (v : N) (rest : list byte) :
  v < int_limit ->
  decode_varint (encode_varint v ++ rest) = Ok (v, rest).
Proof.
  intros Hv. unfold decode_varint, encode_varint.
  rewrite decode_varint_aux_encode.
  - f_equal. f_equal. rewrite N.pow_0_r. lia.
  - apply lt_pow128_log2.
  - rewrite N.pow_0_r. lia.
Qed.

Lemma decode_varint_aux_app (bs : list byte) :
  forall (shift acc v : N) (rest more : list byte),
    decode_varint_aux shift acc bs = Ok (v, rest) ->
    decode_varint_aux shift acc (bs ++ more) = Ok (v, rest ++ more).
Proof.
  induction bs as [|b bs IH]; intros shift acc v rest more H; simpl in *.
  - discriminate H.
  - destruct (int_limit <=? _); [discriminate H|].
    destruct (Byte.to_N b <? 128).
    + injection H as <- <-. reflexivity.
    + apply IH, H.
Qed.

Lemma decode_varint_aux_shorter (bs : list byte) :
  forall (shift acc v : N) (rest : list byte),
    decode_varint_aux shift acc bs = Ok (v, rest) ->
    (length rest < length bs)%nat.
Proof.
  induction bs as [|b bs IH]; intros shift acc v rest H; simpl in *.
  - discriminate H.
  - destruct (int_limit <=? _); [discriminate H|].
    destruct (Byte.to_N b <? 128).
    + injection H as <- <-. lia.
    + apply IH in H. lia.
Qed.

Lemma decode_varint_aux_bound (bs : list byte) :
  forall (shift acc v : N) (rest : list byte),
    decode_varint_aux shift acc bs = Ok (v, rest) -> v < int_limit.
Proof.
  induction bs as [|b bs IH]; intros shift acc v rest H; simpl in *.
  - discriminate H.
  - destruct (int_limit <=? _) eqn:E; [discriminate H|].
    destruct (Byte.to_N b <? 128).
    + injection H as <- <-. apply N.leb_gt, E.
    + eapply IH, H.
Qed.

(** ** Chunk headers *)

Lemma decode_chunk_header_encode (t len : N) (rest : list byte) :
  t < int_limit -> len < int_limit ->
  decode_chunk_header (encode_chunk_header t len ++ rest) = Ok (t, len, rest).
Proof.
  intros Ht Hlen. unfold decode_chunk_header, encode_chunk_header.
  rewrite <- app_assoc, decode_varint_encode by exact Ht. simpl.
  rewrite decode_varint_encode by exact Hlen. reflexivity.
Qed.

Lemma decode_chunk_header_app (bs : list byte) (t len : N)
    (rest more : list byte) :
  decode_chunk_header bs = Ok (t, len, rest) ->
  decode_chunk_header (bs ++ more) = Ok (t, len, rest ++ more).
Proof.
  unfold decode_chunk_header, decode_varint. intros H.
  destruct (decode_varint_aux 0 0 bs) as [[t' bs1]|] eqn:E1; [|discriminate H].
  simpl in H.
  destruct (decode_varint_aux 0 0 bs1) as [[len' bs2]|] eqn:E2; [|discriminate H].
  simpl in H. injection H as <- <- <-.
  rewrite (decode_varint_aux_app _ _ _ _ _ more E1). simpl.
  rewrite (decode_varint_aux_app _ _ _ _ _ more E2). reflexivity.
Qed.

Lemma decode_chunk_header_shorter (bs : list byte) (t len : N)
    (rest : list byte) :
  decode_chunk_header bs = Ok (t, len, rest) ->
  (S (length rest) < length bs)%nat.
Proof.
  unfold decode_chunk_header, decode_varint. intros H.
  destruct (decode_varint_aux 0 0 bs) as [[t' bs1]|] eqn:E1; [|discriminate H].
  simpl in H.
  destruct (decode_varint_aux 0 0 bs1) as [[len' bs2]|] eqn:E2; [|discriminate H].
  simpl in H. injection H as <- <- <-.
  apply decode_varint_aux_shorter in E1, E2. lia.
Qed.

(** ** The reader's fuel *)

Lemma read_chunks_S (fuel : nat) (d : list Field) (r : list Value)
    (cur : list byte) :
  read_chunks (S fuel) d r cur =
    (h <- decode_chunk_header cur ;;
     let '(t, len, cur1) := h in
     if t =? 0 then Ok (r, cur1)
     else if N.of_nat (length cur1) <? len then Err MalformedChunk
     else
       match find_field t d with
       | None => read_chunks fuel d r (skipn (N.to_nat len) cur1)
       | Some (i, f) =>
           v <- read_value fuel (kind f) (firstn (N.to_nat len) cur1) ;;
           read_chunks fuel d (<[i:=v]> r) (skipn (N.to_nat len) cur1)
       end).
Proof. reflexivity. Qed.

Lemma read_elems_S (fuel : nat) (d : list Field) (cur : list byte) :
  read_elems (S fuel) d cur =
    match cur with
    | [] => Ok []
    | _ :: _ =>
        l <- decode_varint cur ;;
        let '(len, cur1) := l in
        if N.of_nat (length cur1) <? len then Err MalformedChunk
        else
          r <- read_chunks fuel d (defaults d) (firstn (N.to_nat len) cur1) ;;
          es <- read_elems fuel d (skipn (N.to_nat len) cur1) ;;
          Ok (VRecord (fst r) :: es)
    end.
Proof. reflexivity. Qed.

Lemma read_value_ext (f1 f2 : nat) (k : FieldKind) (payload : list byte) :
  (forall d r, read_chunks f1 d r payload = read_chunks f2 d r payload) ->
  (forall d, read_elems f1 d payload = read_elems f2 d payload) ->
  read_value f1 k payload = read_value f2 k payload.
Proof.
  intros Hc He. unfold read_value, decode_payload.
  destruct k; try reflexivity.
  - rewrite Hc. reflexivity.
  - rewrite He. reflexivity.
Qed.

(** Any two amounts of fuel above the length of the cursor give the
    same result: the fuel never runs out. *)
Lemma reader_fuel (f1 : nat) :
  forall f2 : nat,
    (forall d r cur,
       (length cur < f1)%nat -> (length cur < f2)%nat ->
       read_chunks f1 d r cur = read_chunks f2 d r cur) /\
    (forall d cur,
       (length cur < f1)%nat -> (length cur < f2)%nat ->
       read_elems f1 d cur = read_elems f2 d cur).
Proof.
  induction f1 as [|f1 IH]; intros f2; split; intros; try lia.
  - destruct f2 as [|f2]; [lia|].
    destruct (IH f2) as [IHc IHe].
    rewrite !read_chunks_S.
    destruct (decode_chunk_header cur) as [[[t len] cur1]|] eqn:Eh; [|reflexivity].
    apply decode_chunk_header_shorter in Eh. simpl.
    destruct (t =? 0); [reflexivity|].
    destruct (N.of_nat (length cur1) <? len); [reflexivity|].
    assert (Hp : (length (firstn (N.to_nat len) cur1) < f1
                  /\ length (firstn (N.to_nat len) cur1) < f2)%nat).
    { rewrite length_take. lia. }
    assert (Hr : (length (skipn (N.to_nat len) cur1) < f1
                  /\ length (skipn (N.to_nat len) cur1) < f2)%nat).
    { rewrite length_drop. lia. }
    destruct (find_field t d) as [[i f]|].
    + rewrite (read_value_ext f1 f2).
      * destruct (read_value f2 (kind f) _); [|reflexivity]. simpl.
        apply IHc; apply Hr.
      * intros. apply IHc; apply Hp.
      * intros. apply IHe; apply Hp.
    + apply IHc; apply Hr.
  - destruct f2 as [|f2]; [lia|].
    destruct (IH f2) as [IHc IHe].
    rewrite !read_elems_S.
    destruct cur as [|b cur']; [reflexivity|].
    destruct (decode_varint (b :: cur')) as [[len cur1]|] eqn:El; [|reflexivity].
    apply decode_varint_aux_shorter in El. simpl.
    destruct (N.of_nat (length cur1) <? len); [reflexivity|].
    rewrite IHc.
    2,3: rewrite length_take; simpl in *; lia.
    destruct (read_chunks f2 d (defaults d) _); [|reflexivity]. simpl.
    rewrite IHe.
    2,3: rewrite length_drop; simpl in *; lia.
    reflexivity.
Qed.

Lemma read_chunks_read_into (fuel : nat) (d : list Field) (r : list Value)
    (cur : list byte) :
  (length cur < fuel)%nat -> read_chunks fuel d r cur = read_into d r cur.
Proof. intros H. apply reader_fuel; [exact H | lia]. Qed.

Lemma read_elems_read_elements (fuel : nat) (d : list Field) (cur : list byte) :
  (length cur < fuel)%nat -> read_elems fuel d cur = read_elements d cur.
Proof. intros H. apply reader_fuel; [exact H | lia]. Qed.

Lemma read_value_read_field (fuel : nat) (k : FieldKind) (payload : list byte) :
  (length payload < fuel)%nat -> read_value fuel k payload = read_field k payload.
Proof.
  intros H. apply read_value_ext; intros; apply reader_fuel; (exact H || lia).
Qed.

(** ** The reader, one step at a time *)

Lemma read_field_nested (child : list Field) (payload : list byte) :
  read_field (KNested child) payload =
    (r <- read_into child (defaults child) payload ;; Ok (VRecord (fst r))).
Proof. reflexivity. Qed.

Lemma read_field_repeated (child : list Field) (payload : list byte) :
  read_field (KRepeated child) payload =
    (es <- read_elements child payload ;; Ok (VRepeated es)).
Proof. reflexivity. Qed.

(** A chunk header that decodes on its own decodes the same in front of
    anything. *)
Lemma read_into_header (d : list Field) (r : list Value) (h : list byte)
    (t len : N) (more : list byte) :
  decode_chunk_header h = Ok (t, len, []) ->
  read_into d r (h ++ more) =
    if t =? 0 then Ok (r, more)
    else if N.of_nat (length more) <? len then Err MalformedChunk
    else
      match find_field t d with
      | None => read_into d r (skipn (N.to_nat len) more)
      | Some (i, f) =>
          v <- read_field (kind f) (firstn (N.to_nat len) more) ;;
          read_into d (<[i:=v]> r) (skipn (N.to_nat len) more)
      end.
Proof.
  intros Hh. unfold read_into at 1. rewrite read_chunks_S.
  pose proof (decode_chunk_header_shorter _ _ _ _ Hh) as Hlen.
  rewrite (decode_chunk_header_app _ _ _ _ more Hh). simpl.
  destruct (t =? 0); [reflexivity|].
  destruct (N.of_nat (length more) <? len); [reflexivity|].
  assert (Hall : (length more + 2 <= length (h ++ more))%nat).
  { rewrite length_app. simpl in Hlen. lia. }
  destruct (find_field t d) as [[i f]|].
  - rewrite read_value_read_field by (rewrite length_take; lia).
    destruct (read_field (kind f) _); [|reflexivity]. simpl.
    apply read_chunks_read_into. rewrite length_drop. lia.
  - apply read_chunks_read_into. rewrite length_drop. lia.
Qed.

Lemma read_into_chunk (d : list Field) (r : list Value) (c : list byte)
    (t : N) (p more : list byte) :
  is_chunk c t p ->
  read_into d r (c ++ more) =
    match find_field t d with
    | None => read_into d r more
    | Some (i, f) =>
        v <- read_field (kind f) p ;; read_into d (<[i:=v]> r) more
    end.
Proof.
  intros (h & -> & Ht & Hh). rewrite <- app_assoc.
  rewrite (read_into_header d r h t _ _ Hh).
  apply N.eqb_neq in Ht as ->.
  replace (N.of_nat (length (p ++ more)) <? N.of_nat (length p)) with false.
  2:{ symmetry. apply N.ltb_ge. rewrite length_app. lia. }
  rewrite Nat2N.id, take_app_length, drop_app_length. reflexivity.
Qed.

Lemma terminator_header : decode_chunk_header terminator = Ok (0, 0, []).
Proof. reflexivity. Qed.

Lemma read_into_terminator (d : list Field) (r : list Value) (more : list byte) :
  read_into d r (terminator ++ more) = Ok (r, more).
Proof. rewrite (read_into_header d r _ _ _ _ terminator_header). reflexivity. Qed.

Lemma encoded_chunk (t : N) (p : list byte) :
  t <> 0 -> t < int_limit -> fits p = true ->
  is_chunk (encode_chunk_header t (N.of_nat (length p)) ++ p) t p.
Proof.
  intros Ht Hlim Hp. apply N.ltb_lt in Hp.
  exists (encode_chunk_header t (N.of_nat (length p))).
  split; [reflexivity|]. split; [exact Ht|].
  rewrite <- (app_nil_r (encode_chunk_header _ _)).
  apply decode_chunk_header_encode; assumption.
Qed.

Lemma read_elements_nil (d : list Field) : read_elements d [] = Ok [].
Proof. reflexivity. Qed.

Lemma read_elements_cons (d : list Field) (buffer more : list byte) :
  fits buffer = true ->
  read_elements d (encode_varint (N.of_nat (length buffer)) ++ buffer ++ more) =
    (r <- read_into d (defaults d) buffer ;;
     es <- read_elements d more ;;
     Ok (VRecord (fst r) :: es)).
Proof.
  intros Hb. apply N.ltb_lt in Hb.
  unfold read_elements at 1. rewrite read_elems_S.
  pose proof (decode_varint_encode _ (buffer ++ more) Hb) as Hd.
  destruct (encode_varint (N.of_nat (length buffer)) ++ buffer ++ more)
    as [|b cur'] eqn:Ecur; [discriminate Hd|].
  rewrite Hd. cbn [bind].
  pose proof (decode_varint_aux_shorter _ _ _ _ _ Hd) as Hlen.
  replace (N.of_nat (length (buffer ++ more)) <? N.of_nat (length buffer))
    with false.
  2:{ symmetry. apply N.ltb_ge. rewrite length_app. lia. }
  rewrite Nat2N.id, take_app_length, drop_app_length.
  rewrite length_app in Hlen.
  rewrite read_chunks_read_into by lia.
  destruct (read_into d (defaults d) buffer); [|reflexivity]. cbn [bind].
  rewrite read_elems_read_elements by lia. reflexivity.
Qed.

(** ** Unknown tags *)



(** ** The cursor stays inside the stream *)

Lemma decode_varint_aux_suffix (bs : list byte) :
  forall (shift acc v : N) (rest : list byte),
    decode_varint_aux shift acc bs = Ok (v, rest) ->
    exists used : list byte, bs = used ++ rest.
Proof.
  induction bs as [|b bs IH]; intros shift acc v rest H; simpl in H.
  - discriminate H.
  - destruct (int_limit <=? _); [discriminate H|].
    destruct (Byte.to_N b <? 128).
    + injection H as <- <-. exists [b]. reflexivity.
    + destruct (IH _ _ _ _ H) as [used ->]. exists (b :: used). reflexivity.
Qed.

Lemma decode_chunk_header_suffix (bs : list byte) (t len : N)
    (rest : list byte) :
  decode_chunk_header bs = Ok (t, len, rest) ->
  exists used : list byte, bs = used ++ rest.
Proof.
  unfold decode_chunk_header, decode_varint. intros H.
  destruct (decode_varint_aux 0 0 bs) as [[t' bs1]|] eqn:E1; [|discriminate H].
  simpl in H.
  destruct (decode_varint_aux 0 0 bs1) as [[len' bs2]|] eqn:E2; [|discriminate H].
  simpl in H. injection H as <- <- <-.
  apply decode_varint_aux_suffix in E1 as [u1 ->].
  apply decode_varint_aux_suffix in E2 as [u2 ->].
  exists (u1 ++ u2). apply app_assoc.
Qed.

Lemma read_chunks_suffix (fuel : nat) :
  forall (d : list Field) (r : list Value) (cur : list byte)
         (r' : list Value) (rest : list byte),
    read_chunks fuel d r cur = Ok (r', rest) ->
    exists used : list byte, cur = used ++ rest.
Proof.
  induction fuel as [|fuel IH]; intros d r cur r' rest H; [discriminate H|].
  rewrite read_chunks_S in H.
  destruct (decode_chunk_header cur) as [[[t len] cur1]|] eqn:Eh;
    [|discriminate H].
  apply decode_chunk_header_suffix in Eh as [uh ->]. cbn [bind] in H.
  destruct (t =? 0).
  { injection H as <- <-. exists uh. reflexivity. }
  destruct (N.of_nat (length cur1) <? len); [discriminate H|].
  assert (Hskip : forall r0,
            read_chunks fuel d r0 (skipn (N.to_nat len) cur1) = Ok (r', rest) ->
            exists used : list byte, uh ++ cur1 = used ++ rest).
  { intros r0 H0. apply IH in H0 as [u Hu].
    exists (uh ++ firstn (N.to_nat len) cur1 ++ u).
    rewrite <- !app_assoc, <- Hu, take_drop. reflexivity. }
  destruct (find_field t d) as [[i f]|]; [|exact (Hskip _ H)].
  destruct (read_value fuel (kind f) _); [|discriminate H].
  exact (Hskip _ H).
Qed.

(** A successful [read_record] hands back a cursor that is a tail of
    the stream it was given: no byte beyond the stream is consumed. *)
Lemma read_record_stays_in_stream (d : list Field) (cur : list byte)
    (r : list Value) (rest : list byte) :
  read_record d cur = Ok (r, rest) ->
  exists used : list byte, cur = used ++ rest.
Proof. apply read_chunks_suffix. Qed.

(** ** Overlong chunks *)



(** ** Equality test on values *)

Lemma list_eqb_sound {A} (eqb : A -> A -> bool) (xs : list A) :
  Forall (fun x => forall y, eqb x y = true -> x = y) xs ->
  forall ys, list_eqb eqb xs ys = true -> xs = ys.
Proof.
  induction 1 as [|x xs Hx _ IH]; intros [|y ys] H; simpl in H;
    try discriminate H; [reflexivity|].
  apply andb_true_iff in H as [H1 H2].
  f_equal; [apply Hx, H1 | apply IH, H2].
Qed.

Lemma list_eqb_sound_all {A} (eqb : A -> A -> bool) :
  (forall x y, eqb x y = true -> x = y) ->
  forall xs ys, list_eqb eqb xs ys = true -> xs = ys.
Proof.
  intros H xs. apply list_eqb_sound. apply Forall_forall. intros x _. apply H.
Qed.

Lemma value_eqb_sound (v : Value) : forall w, value_eqb v w = true -> v = w.
Proof.
  induction v as [b|n|bits|s|fields IH|elems IH|xs|flags]
    using Value_nested_ind; intros [] H; simpl in H; try discriminate H;
    f_equal.
  - apply Bool.eqb_prop, H.
  - apply N.eqb_eq, H.
  - revert H. apply list_eqb_sound_all. exact Byte.byte_dec_bl.
  - revert H. apply list_eqb_sound_all. exact Byte.byte_dec_bl.
  - revert H. apply list_eqb_sound. exact IH.
  - revert H. apply list_eqb_sound. exact IH.
  - revert H. apply list_eqb_sound_all. intros x y. apply N.eqb_eq.
  - revert H. apply list_eqb_sound_all. exact Bool.eqb_prop.
Qed.

(** ** Scalar payloads *)

Lemma decode_varint_encode_alone (v : N) :
  v < int_limit -> decode_varint (encode_varint v) = Ok (v, []).
Proof.
  intros H. rewrite <- (app_nil_r (encode_varint v)).
  apply decode_varint_encode, H.
Qed.

Lemma decode_array_encode (xs : list N) (rest : list byte) :
  forallb (fun x => x <? int_limit) xs = true ->
  decode_array (length xs) (encode_array xs ++ rest) = Ok xs.
Proof.
  induction xs as [|x xs IH]; intros H; [reflexivity|].
  simpl in H. apply andb_true_iff in H as [Hx Hxs]. apply N.ltb_lt in Hx.
  cbn [length encode_array decode_array].
  rewrite <- app_assoc, decode_varint_encode by exact Hx. cbn [bind fst snd].
  rewrite IH by exact Hxs. reflexivity.
Qed.

Lemma unpack_pack_bits (flags : list bool) :
  unpack_bits (length flags) (pack_bits flags) = flags.
Proof.
  induction flags as [|b flags IH]; [reflexivity|].
  cbn [length pack_bits unpack_bits]. f_equal.
  - rewrite N.odd_add_mul_2. destruct b; reflexivity.
  - replace ((N.b2n b + 2 * pack_bits flags) / 2) with (pack_bits flags);
      [exact IH|].
    apply N.div_unique with (r := N.b2n b); [destruct b; reflexivity | lia].
Qed.

Lemma pack_bits_bound (flags : list bool) :
  pack_bits flags < 2 ^ N.of_nat (length flags).
Proof.
  induction flags as [|b flags IH]; [reflexivity|].
  cbn [length pack_bits]. rewrite Nat2N.inj_succ, N.pow_succ_r'.
  destruct b; simpl N.b2n; lia.
Qed.

Lemma le_value_bytes (m : nat) :
  forall x : N, x < 256 ^ N.of_nat m -> le_value (le_bytes m x) = x.
Proof.
  induction m as [|m IH]; intros x Hx.
  - simpl in *. lia.
  - cbn [le_bytes le_value].
    pose proof (N.mod_lt x 256 ltac:(lia)) as Hmod.
    rewrite to_N_byte_of_N by exact Hmod.
    rewrite IH.
    + pose proof (N.div_mod x 256 ltac:(lia)). lia.
    + apply N.Div0.div_lt_upper_bound.
      rewrite Nat2N.inj_succ, N.pow_succ_r' in Hx. exact Hx.
Qed.

Lemma length_le_bytes (m : nat) (x : N) : length (le_bytes m x) = m.
Proof. revert x. induction m as [|m IH]; intros x; simpl; [|rewrite IH]; reflexivity. Qed.

Lemma decode_bits_encode (flags : list bool) :
  decode_bits (length flags) (encode_bits flags) = Ok flags.
Proof.
  unfold decode_bits, encode_bits. rewrite length_le_bytes.
  rewrite Nat.ltb_irrefl.
  rewrite take_ge by (rewrite length_le_bytes; lia).
  rewrite le_value_bytes, unpack_pack_bits; [reflexivity|].
  eapply N.lt_le_trans; [apply pack_bits_bound|].
  change 256 with (2 ^ 8). rewrite <- N.pow_mul_r.
  apply N.pow_le_mono_r; [lia|].
  unfold bits_bytes.
  pose proof (Nat.div_mod_eq (length flags + 7) 8).
  pose proof (Nat.mod_upper_bound (length flags + 7) 8 ltac:(lia)). lia.
Qed.

Lemma decode_float_eight (bits : list byte) :
  length bits = 8%nat -> decode_float bits = Ok bits.
Proof.
  intros H. unfold decode_float. rewrite H. simpl.
  rewrite take_ge by lia. reflexivity.
Qed.

(** ** Descriptors *)

Lemma fields_ok_cons (lo : N) (f : Field) (d : list Field) :
  fields_ok lo (f :: d) = true ->
  lo < tag f /\ tag f < int_limit /\ kind_ok (kind f) = true /\
  fields_ok (tag f) d = true.
Proof.
  destruct f as [t k v]. simpl. rewrite !andb_true_iff, !N.ltb_lt. tauto.
Qed.

Lemma fields_ok_above (d : list Field) :
  forall lo, fields_ok lo d = true -> Forall (fun g => lo < tag g) d.
Proof.
  induction d as [|f d IH]; intros lo H; [constructor|].
  apply fields_ok_cons in H as (Hlo & _ & _ & H).
  constructor; [exact Hlo|].
  eapply Forall_impl; [apply IH, H|]. simpl. intros g Hg. lia.
Qed.

Lemma fields_ok_field (d1 : list Field) :
  forall lo f d2,
    fields_ok lo (d1 ++ f :: d2) = true ->
    lo < tag f /\ tag f < int_limit /\ kind_ok (kind f) = true /\
    Forall (fun g => tag g <> tag f) d1.
Proof.
  induction d1 as [|g d1 IH]; intros lo f d2 H.
  - apply fields_ok_cons in H as (? & ? & ? & _). repeat split; auto.
  - rewrite <- app_comm_cons in H.
    apply fields_ok_cons in H as (Hlo & _ & _ & H).
    destruct (IH _ _ _ H) as (Hf & ? & ? & Hne).
    repeat split; auto; [lia|].
    constructor; [lia | exact Hne].
Qed.

Lemma find_field_at (d1 : list Field) (f : Field) (d2 : list Field) :
  Forall (fun g => tag g <> tag f) d1 ->
  find_field (tag f) (d1 ++ f :: d2) = Some (length d1, f).
Proof.
  induction 1 as [|g d1 Hg _ IH]; simpl.
  - rewrite N.eqb_refl. reflexivity.
  - apply N.eqb_neq in Hg as ->. rewrite IH. reflexivity.
Qed.

(** ** Round trip *)

Lemma write_value_nested (child : list Field) (fields : list Value) :
  write_value (KNested child) (VRecord fields) = write_record child fields.
Proof. reflexivity. Qed.

Lemma write_fields_cons (f : Field) (d : list Field) (x : Value)
    (r : list Value) :
  write_fields (f :: d) (x :: r) =
    (if value_eqb x (default f) then []
     else encode_chunk_header (tag f)
            (N.of_nat (length (write_value (kind f) x)))
            ++ write_value (kind f) x)
    ++ write_fields d r.
Proof. reflexivity. Qed.

Lemma record_ok_cons (f : Field) (d : list Field) (x : Value)
    (r : list Value) :
  record_ok (f :: d) (x :: r) =
    (value_eqb x (default f)
     || (value_ok (kind f) x && fits (write_value (kind f) x)))
    && record_ok d r.
Proof. reflexivity. Qed.

(** The reader, part way through a written record: [d1] and [r1] are
    the fields already passed, [d2] and [r2] those still in the
    stream. *)
Lemma read_into_written_fields (d : list Field) (more : list byte)
    (r2 : list Value) :
  desc_ok d = true ->
  Forall round_trips r2 ->
  forall (d2 d1 : list Field) (r1 : list Value),
    d = d1 ++ d2 ->
    length r1 = length d1 ->
    record_ok d2 r2 = true ->
    read_into d (r1 ++ defaults d2) (write_fields d2 r2 ++ terminator ++ more)
      = Ok (r1 ++ r2, more).
Proof.
  intros Hd Hall.
  induction Hall as [|x r2 Hx _ IH]; intros d2 d1 r1 Hsplit Hlen Hok.
  - destruct d2 as [|f d2]; [|discriminate Hok].
    cbn [write_fields defaults List.map app]. apply read_into_terminator.
  - destruct d2 as [|f d2]; [discriminate Hok|].
    rewrite record_ok_cons in Hok. apply andb_true_iff in Hok as [Hfield Hrest].
    assert (Hnext : read_into d ((r1 ++ [x]) ++ defaults d2)
                      (write_fields d2 r2 ++ terminator ++ more)
                    = Ok ((r1 ++ [x]) ++ r2, more)).
    { apply (IH d2 (d1 ++ [f])).
      - rewrite <- app_assoc. exact Hsplit.
      - rewrite !length_app, Hlen. reflexivity.
      - exact Hrest. }
    rewrite <- !app_assoc in Hnext. cbn [app] in Hnext.
    rewrite write_fields_cons.
    change (defaults (f :: d2)) with (default f :: defaults d2).
    destruct (value_eqb x (default f)) eqn:Hdef.
    + apply value_eqb_sound in Hdef as <-. exact Hnext.
    + cbn [orb] in Hfield. apply andb_true_iff in Hfield as [Hvalue Hfits].
      unfold desc_ok in Hd. rewrite Hsplit in Hd.
      destruct (fields_ok_field _ _ _ _ Hd) as (Htag & Hlim & Hkind & Hne).
      rewrite <- app_assoc.
      rewrite (read_into_chunk d _ _ (tag f) (write_value (kind f) x)).
      2:{ apply encoded_chunk; [lia | exact Hlim | exact Hfits]. }
      rewrite Hsplit, (find_field_at _ _ _ Hne).
      rewrite (Hx (kind f) Hkind Hvalue). cbn [bind].
      rewrite <- Hsplit, <- Hlen.
      replace (length r1) with (length r1 + 0)%nat by lia.
      rewrite insert_app_r. exact Hnext.
Qed.

Lemma read_record_written (d : list Field) (r : list Value) (more : list byte) :
  desc_ok d = true ->
  Forall round_trips r ->
  record_ok d r = true ->
  read_record d (write_record d r ++ more) = Ok (r, more).
Proof.
  intros Hd Hall Hok. unfold read_record, write_record.
  rewrite <- app_assoc.
  apply (read_into_written_fields d more r Hd Hall d [] []);
    [reflexivity | reflexivity | exact Hok].
Qed.

Lemma read_elements_written (child : list Field) (elems : list Value) :
  desc_ok child = true ->
  Forall round_trips elems ->
  value_ok (KRepeated child) (VRepeated elems) = true ->
  read_elements child (write_value (KRepeated child) (VRepeated elems))
    = Ok elems.
Proof.
  intros Hd Hall. induction Hall as [|e elems He _ IH]; intros Hok.
  - reflexivity.
  - change (value_ok (KRepeated child) (VRepeated (e :: elems)))
      with (value_ok (KNested child) e
            && fits (write_value (KNested child) e)
            && value_ok (KRepeated child) (VRepeated elems)) in Hok.
    apply andb_true_iff in Hok as [Hok Hrest].
    apply andb_true_iff in Hok as [He_ok He_fits].
    change (write_value (KRepeated child) (VRepeated (e :: elems)))
      with (encode_varint (N.of_nat (length (write_value (KNested child) e)))
            ++ write_value (KNested child) e
            ++ write_value (KRepeated child) (VRepeated elems)).
    rewrite read_elements_cons by exact He_fits.
    specialize (He (KNested child) Hd He_ok).
    rewrite read_field_nested in He.
    destruct (read_into child (defaults child) (write_value (KNested child) e))
      as [r|]; [|discriminate He].
    cbn [bind] in He |- *. injection He as <-.
    rewrite (IH Hrest). reflexivity.
Qed.

Lemma every_value_round_trips (v : Value) : round_trips v.
Proof.
  induction v as [b|n|bits|s|fields IH|elems IH|xs|flags]
    using Value_nested_ind; intros k Hk Hok;
    destruct k; try discriminate Hok.
  - unfold read_field, read_value, decode_payload. cbn [write_value].
    unfold encode_bool.
    rewrite decode_varint_encode_alone by (destruct b; reflexivity).
    destruct b; reflexivity.
  - cbn [value_ok] in Hok. apply N.ltb_lt in Hok.
    unfold read_field, read_value, decode_payload. cbn [write_value].
    rewrite decode_varint_encode_alone by exact Hok. reflexivity.
  - cbn [value_ok] in Hok. apply Nat.eqb_eq in Hok.
    unfold read_field, read_value, decode_payload. cbn [write_value].
    rewrite decode_float_eight by exact Hok. reflexivity.
  - reflexivity.
  - rewrite read_field_nested, write_value_nested.
    rewrite <- (app_nil_r (write_record child fields)).
    unfold read_record in *.
    pose proof (read_record_written child fields [] Hk IH Hok) as H.
    unfold read_record in H. rewrite H. reflexivity.
  - rewrite read_field_repeated.
    rewrite (read_elements_written child elems Hk IH Hok). reflexivity.
  - cbn [value_ok] in Hok. apply andb_true_iff in Hok as [Hlen Hxs].
    apply Nat.eqb_eq in Hlen. subst n.
    unfold read_field, read_value, decode_payload. cbn [write_value].
    rewrite <- (app_nil_r (encode_array xs)).
    rewrite decode_array_encode by exact Hxs. reflexivity.
  - cbn [value_ok] in Hok. apply Nat.eqb_eq in Hok. subst n.
    unfold read_field, read_value, decode_payload. cbn [write_value].
    rewrite decode_bits_encode. reflexivity.
Qed.

(** C5.  For a descriptor with ascending tags and a record of its
    shape whose integers and chunk lengths fit the integer width,
    [read_record] on the bytes of [write_record] gives the record back,
    field for field, with nothing left to read; the fields equal to
    their defaults are among them although the writer left them out. *)
Theorem write_then_read_record (d : list Field) (r : list Value) :
  desc_ok d = true ->
  record_ok d r = true ->
  read_record d (write_record d r) = Ok (r, []).
Proof.
  intros Hd Hok. rewrite <- (app_nil_r (write_record d r)).
  apply read_record_written; [exact Hd | | exact Hok].
  apply Forall_forall. intros x _. apply every_value_round_trips.
Qed.

(** ** The codec run on the demo records *)

Lemma write_then_read_record_witness :
  desc_ok Demo.actor_desc = true /\
  record_ok Demo.actor_desc Demo.actor = true /\
  read_record Demo.actor_desc (write_record Demo.actor_desc Demo.actor)
    = Ok (Demo.actor, []).
Proof.
  assert (Hd : desc_ok Demo.actor_desc = true) by (vm_compute; reflexivity).
  assert (Hr : record_ok Demo.actor_desc Demo.actor = true)
    by (vm_compute; reflexivity).
  split; [exact Hd|]. split; [exact Hr|].
  exact (write_then_read_record Demo.actor_desc Demo.actor Hd Hr).
Defined.


Lemma demo_chunk_string : is_chunk Demo.chunk_string 10 [x41; x42].
Proof. exists [x0a; x02]. repeat split. discriminate. Qed.







End CodecFacts.


(** * Facts about the reprs and the tag dict of index.cpp *)

Module BindingsFacts.

Import Bindings.
Local Open Scope string_scope.
Local Open Scope Z_scope.

(** ** [EventPageConditionFlags.__repr__] *)

Lemma all_Flags_complete (f : Flags) : List.In f all_Flags.
Proof.
  destruct f as [a b c d e f g]. unfold all_Flags.
  unfold each_bool at 1. apply in_or_app. destruct a; [right | left].
  all: cbv beta; unfold each_bool at 1; apply in_or_app;
    destruct b; [right | left].
  all: cbv beta; unfold each_bool at 1; apply in_or_app;
    destruct c; [right | left].
  all: cbv beta; unfold each_bool at 1; apply in_or_app;
    destruct d; [right | left].
  all: cbv beta; unfold each_bool at 1; apply in_or_app;
    destruct e; [right | left].
  all: cbv beta; unfold each_bool at 1; apply in_or_app;
    destruct f; [right | left].
  all: cbv beta; unfold each_bool at 1; apply in_or_app;
    destruct g; [right | left].
  all: left; reflexivity.
Qed.

Lemma Flags_eqb_eq (a b : Flags) : Flags_eqb a b = true -> a = b.
Proof.
  destruct a, b. unfold Flags_eqb. simpl.
  rewrite !andb_true_iff. intros [[[[[[H1 H2] H3] H4] H5] H6] H7].
  apply Bool.eqb_prop in H1, H2, H3, H4, H5, H6, H7. congruence.
Qed.

Lemma Flags_repr_table_true : Flags_repr_table = true.
Proof. vm_compute. reflexivity. Qed.

(** X1.  Two different flag values never print the same text: the
    flags can be read back from the repr. *)
Theorem Flags_repr_injective (a b : Flags) :
  Flags_repr a = Flags_repr b -> a = b.
Proof.
  intros H. pose proof Flags_repr_table_true as T.
  unfold Flags_repr_table in T. rewrite forallb_forall in T.
  specialize (T a (all_Flags_complete a)). rewrite forallb_forall in T.
  specialize (T b (all_Flags_complete b)).
  apply String.eqb_eq in H. rewrite H in T. simpl in T.
  apply Flags_eqb_eq, T.
Qed.

Lemma Flags_repr_injective_witness :
  mkFlags true false false true false false true =
  mkFlags true false false true false false true.
Proof. exact (Flags_repr_injective _ _ eq_refl). Defined.

(** ** [EventCommand.__repr__] *)

Lemma append_assoc (a b c : string) : ((a ++ b) ++ c = a ++ (b ++ c))%string.
Proof.
  induction a as [|x a IH]; [reflexivity | exact (f_equal (String x) IH)].
Qed.

Lemma append_nil_r (a : string) : (a ++ "" = a)%string.
Proof.
  induction a as [|x a IH]; [reflexivity | exact (f_equal (String x) IH)].
Qed.

Lemma appends_pure {A} (a : A) : appends (pure a).
Proof.
  intros out x out' H. injection H as <- <-. exists "". symmetry.
  apply append_nil_r.
Qed.

Lemma appends_put (s : string) : appends (put s).
Proof. intros out x out' H. injection H as <- <-. exists s. reflexivity. Qed.

Lemma appends_undefined {A} : appends (@undefined A).
Proof. intros out x out' H. discriminate H. Qed.

Lemma appends_length_error {A} : appends (@length_error A).
Proof. intros out x out' H. discriminate H. Qed.

Lemma appends_then {A B} (m : Stream A) (k : A -> Stream B) :
  appends m -> (forall a, appends (k a)) -> appends (then_ m k).
Proof.
  intros Hm Hk out b out' H. unfold then_ in H.
  destruct (m out) as [[a mid]| |] eqn:E; try discriminate H.
  destruct (Hm _ _ _ E) as [s1 ->].
  destruct (Hk a _ _ _ H) as [s2 ->].
  exists (s1 ++ s2)%string. apply append_assoc.
Qed.

Lemma appends_at (p : list Z) (i : nat) : appends (at_ p i).
Proof.
  unfold at_. destruct (p !! i); [apply appends_pure | apply appends_undefined].
Qed.

Lemma appends_minus (a b : Z) : appends (minus a b).
Proof.
  unfold minus. destruct (in_int (a - b));
    [apply appends_pure | apply appends_undefined].
Qed.

Ltac appends :=
  repeat first
    [ apply appends_put | apply appends_pure | apply appends_undefined
    | apply appends_length_error | apply appends_at | apply appends_minus
    | apply appends_then; [|intros ?]
    | match goal with
      | |- appends (if ?b then _ else _) => destruct b
      | |- appends (match ?o with Some _ => _ | None => _ end) => destruct o
      | |- appends (put_int _) => unfold put_int
      end ].

Lemma appends_put_parameters (p : list Z) : appends (put_parameters p).
Proof. induction p as [|i p IH]; simpl; appends. exact IH. Qed.

Lemma appends_put_indent (n : Z) : appends (put_indent n).
Proof. unfold put_indent. appends. Qed.

Lemma appends_conditional_branch (p : list Z) :
  appends (repr_conditional_branch p).
Proof. unfold repr_conditional_branch. appends. apply appends_put_parameters. Qed.

Lemma appends_control (is_vars : bool) (p : list Z) :
  appends (repr_control is_vars p).
Proof. unfold repr_control. appends. Qed.

Lemma appends_default (codes : CodeTable) (cmd : EventCommand) :
  appends (repr_default codes cmd).
Proof. unfold repr_default. appends. apply appends_put_parameters. Qed.

Lemma appends_switch (codes : CodeTable) (cmd : EventCommand) :
  appends (repr_switch codes cmd).
Proof. unfold repr_switch. appends; apply appends_put_parameters. Qed.

Lemma EventCommand_repr_run (codes : CodeTable) (cmd : EventCommand) :
  0 <= indent cmd < 2 ^ 30 ->
  EventCommand_repr codes cmd =
    match repr_switch codes cmd
            (Pylcf.fill_string (Z.to_nat (indent cmd * 2)) " "%char) with
    | Value (_, out) => Value out
    | LengthError => LengthError
    | Undefined => Undefined
    end.
Proof.
  intros H. unfold EventCommand_repr, then_, put_indent.
  replace (in_int (indent cmd * 2)) with true.
  2:{ symmetry. unfold in_int, int_min, int_max.
      apply andb_true_iff. split; apply Z.leb_le; lia. }
  replace (indent cmd * 2 <? 0) with false by (symmetry; apply Z.ltb_ge; lia).
  reflexivity.
Qed.

(** X2.  Whatever the command, a repr that comes out starts with two
    spaces for each level of [indent]: the branches only add text
    behind the indentation, and a repr only comes out for an [indent]
    that is not negative. *)
Theorem EventCommand_repr_is_indented (codes : CodeTable)
    (cmd : EventCommand) (text : string) :
  EventCommand_repr codes cmd = Value text ->
  0 <= indent cmd /\
  exists body : string,
    text = (Pylcf.fill_string (2 * Z.to_nat (indent cmd)) " "%char ++ body)%string.
Proof.
  unfold EventCommand_repr, then_, put_indent.
  destruct (in_int (indent cmd * 2)); [|discriminate].
  destruct (indent cmd * 2 <? 0) eqn:Hneg; [discriminate|].
  apply Z.ltb_ge in Hneg. unfold put at 1.
  change ("" ++ ?s)%string with s.
  destruct (repr_switch codes cmd _) as [[u out]| |] eqn:E; try discriminate.
  intros [= <-]. split; [lia|].
  destruct (appends_switch codes cmd _ _ _ E) as [body ->].
  exists body. f_equal. f_equal. lia.
Qed.

Lemma EventCommand_repr_is_indented_witness :
  0 <= indent Demo.set_variable /\
  exists body : string,
    "  Set Variable(5) += 7" =
      (Pylcf.fill_string (2 * Z.to_nat (indent Demo.set_variable)) " "%char
       ++ body)%string.
Proof.
  exact (EventCommand_repr_is_indented Demo.codes Demo.set_variable
           "  Set Variable(5) += 7" eq_refl).
Defined.

(** X3.  A negative [indent] makes the repr raise [std::length_error],
    whatever the code and the parameters. *)
Theorem EventCommand_repr_negative_indent (codes : CodeTable)
    (cmd : EventCommand) :
  - 2 ^ 30 <= indent cmd < 0 ->
  EventCommand_repr codes cmd = LengthError.
Proof.
  intros H. unfold EventCommand_repr, then_ at 1, put_indent.
  replace (in_int (indent cmd * 2)) with true.
  2:{ symmetry. unfold in_int, int_min, int_max.
      apply andb_true_iff. split; apply Z.leb_le; lia. }
  replace (indent cmd * 2 <? 0) with true by (symmetry; apply Z.ltb_lt; lia).
  reflexivity.
Qed.

Lemma EventCommand_repr_negative_indent_witness :
  EventCommand_repr Demo.codes Demo.dedented = LengthError.
Proof.
  apply EventCommand_repr_negative_indent. simpl. lia.
Defined.

Lemma put_parameters_defined (p : list Z) :
  forall out : string, exists out' : string,
    put_parameters p out = Value (tt, out').
Proof.
  induction p as [|i p IH]; intros out; simpl.
  - eexists. reflexivity.
  - unfold then_, put_int, put. apply IH.
Qed.

Lemma in_int_one_minus (x : Z) :
  int_min + 2 <= x <= int_max -> in_int (1 - x) = true.
Proof.
  unfold in_int, int_min, int_max. intros H.
  apply andb_true_iff. split; apply Z.leb_le; lia.
Qed.

Ltac branches :=
  repeat match goal with
         | |- context [if ?b then _ else _] => destruct b
         end.

(** X4.  A command whose code is a comment, or any code outside the
    three structured ones that has a tag, gets a repr whatever its
    parameters are, also when there are none: these branches do not
    index [parameters]. *)
Theorem EventCommand_repr_without_indexing (codes : CodeTable)
    (cmd : EventCommand) :
  0 <= indent cmd < 2 ^ 30 ->
  code cmd = Comment codes \/ code cmd = Comment_2 codes \/
  (~ structured codes (code cmd) /\ tag codes (code cmd) <> None) ->
  exists text : string, EventCommand_repr codes cmd = Value text.
Proof.
  intros Hindent Hcode. rewrite EventCommand_repr_run by exact Hindent.
  unfold repr_switch.
  destruct ((code cmd =? Comment codes) || (code cmd =? Comment_2 codes))
    eqn:Hcomment.
  { eexists. reflexivity. }
  apply orb_false_iff in Hcomment as [H1 H2].
  apply Z.eqb_neq in H1, H2.
  destruct Hcode as [H|[H|[Hns Htag]]]; [contradiction | contradiction |].
  unfold structured in Hns.
  destruct (code cmd =? ConditionalBranch codes) eqn:E1;
    [apply Z.eqb_eq in E1; tauto|].
  destruct (code cmd =? ControlVars codes) eqn:E2;
    [apply Z.eqb_eq in E2; tauto|].
  destruct (code cmd =? ControlSwitches codes) eqn:E3;
    [apply Z.eqb_eq in E3; tauto|].
  cbn [orb]. unfold repr_default.
  destruct (tag codes (code cmd)) as [name|]; [|contradiction].
  unfold then_ at 1 2. unfold put at 1.
  destruct (put_parameters_defined (parameters cmd)
              (Pylcf.fill_string (Z.to_nat (indent cmd * 2)) " " ++ name)%string)
    as [out' ->].
  destruct (negb (Pylcf.empty (string_ cmd))); eexists; reflexivity.
Qed.

Lemma EventCommand_repr_without_indexing_witness :
  exists text : string, EventCommand_repr Demo.codes Demo.comment = Value text.
Proof.
  apply EventCommand_repr_without_indexing.
  - simpl. lia.
  - left. reflexivity.
Defined.

(** X5.  With at least six parameters, none of them one of the two
    lowest [int] values, the repr of a structured command is defined:
    no index leaves [parameters] and no subtraction overflows. *)
Theorem EventCommand_repr_six_parameters (codes : CodeTable)
    (cmd : EventCommand) :
  0 <= indent cmd < 2 ^ 30 ->
  structured codes (code cmd) ->
  (6 <= length (parameters cmd))%nat ->
  Forall (fun x => int_min + 2 <= x <= int_max) (parameters cmd) ->
  exists text : string, EventCommand_repr codes cmd = Value text.
Proof.
  intros Hindent Hcode Hlen Hsafe.
  rewrite EventCommand_repr_run by exact Hindent.
  unfold repr_switch.
  destruct (parameters cmd) as [|p0 [|p1 [|p2 [|p3 [|p4 [|p5 rest]]]]]];
    simpl in Hlen; try lia.
  assert (H2 : in_int (1 - p2) = true).
  { apply in_int_one_minus.
    inversion Hsafe as [|? ? _ Hs1]. inversion Hs1 as [|? ? _ Hs2].
    inversion Hs2 as [|? ? Hx _]. exact Hx. }
  assert (H3 : in_int (1 - p3) = true).
  { apply in_int_one_minus.
    inversion Hsafe as [|? ? _ Hs1]. inversion Hs1 as [|? ? _ Hs2].
    inversion Hs2 as [|? ? _ Hs3]. inversion Hs3 as [|? ? Hx _]. exact Hx. }
  destruct ((code cmd =? Comment codes) || (code cmd =? Comment_2 codes)).
  { eexists. reflexivity. }
  destruct (code cmd =? ConditionalBranch codes) eqn:E1.
  { unfold repr_conditional_branch.
    set (rest_of := put_parameters _).
    unfold then_, at_, put, put_int, pure, minus.
    simpl. rewrite H2.
    destruct (p0 =? 0); [eexists; reflexivity|].
    destruct (p0 =? 1).
    - branches; eexists; reflexivity.
    - subst rest_of.
      match goal with
      | |- context [put_parameters ?p ?out] =>
          destruct (put_parameters_defined p out) as [out' ->]
      end.
      eexists. reflexivity. }
  destruct ((code cmd =? ControlVars codes)
            || (code cmd =? ControlSwitches codes)) eqn:Hctl.
  { unfold repr_control, then_, at_, put, put_int, pure, minus.
    simpl. rewrite H3.
    branches; eexists; reflexivity. }
  exfalso. apply orb_false_iff in Hctl as [E2 E3].
  apply Z.eqb_neq in E1, E2, E3. unfold structured in Hcode.
  destruct Hcode as [H|[H|H]]; contradiction.
Qed.

Lemma EventCommand_repr_six_parameters_witness :
  exists text : string,
    EventCommand_repr Demo.codes Demo.set_variable = Value text.
Proof.
  apply EventCommand_repr_six_parameters.
  - simpl. lia.
  - right. left. reflexivity.
  - simpl. lia.
  - unfold int_min, int_max. simpl. repeat constructor; lia.
Defined.

Lemma distinct_codes_comment (codes : CodeTable) (c : Z) :
  distinct_codes codes -> structured codes c ->
  (c =? Comment codes) || (c =? Comment_2 codes) = false.
Proof.
  unfold distinct_codes, structured. intros Hd Hs.
  apply orb_false_iff. split; apply Z.eqb_neq; intros ->.
  - inversion Hd as [|? ? Hnot _]. apply Hnot. simpl. intuition.
  - inversion Hd as [|? ? _ Hd1]. inversion Hd1 as [|? ? Hnot _].
    apply Hnot. simpl. intuition.
Qed.

(** X6.  The three structured commands read [parameters[0]] before
    anything else: with no parameters at all their repr indexes past
    the end of the array, and no text is defined. *)
Theorem EventCommand_repr_no_parameters (codes : CodeTable)
    (cmd : EventCommand) :
  distinct_codes codes ->
  structured codes (code cmd) ->
  parameters cmd = [] ->
  0 <= indent cmd < 2 ^ 30 ->
  EventCommand_repr codes cmd = Undefined.
Proof.
  intros Hd Hs Hp Hindent. rewrite EventCommand_repr_run by exact Hindent.
  unfold repr_switch. rewrite (distinct_codes_comment codes _ Hd Hs), Hp.
  destruct (code cmd =? ConditionalBranch codes) eqn:E1; [reflexivity|].
  destruct ((code cmd =? ControlVars codes)
            || (code cmd =? ControlSwitches codes)) eqn:Hctl.
  - destruct (code cmd =? ControlVars codes); reflexivity.
  - exfalso. apply orb_false_iff in Hctl as [E2 E3].
    apply Z.eqb_neq in E1, E2, E3. unfold structured in Hs.
    destruct Hs as [H|[H|H]]; contradiction.
Qed.

Lemma EventCommand_repr_no_parameters_witness :
  EventCommand_repr Demo.codes Demo.bare_branch = Undefined.
Proof.
  apply EventCommand_repr_no_parameters.
  - repeat constructor; simpl; intuition discriminate.
  - left. reflexivity.
  - reflexivity.
  - simpl. lia.
Defined.


(** ** [EventCommand.tag] *)

Lemma eventcmdtag_snoc (tags : list Item) (it : Item) :
  eventcmdtag (tags ++ [it]) = add_item (eventcmdtag tags) it.
Proof. unfold eventcmdtag. rewrite fold_left_app. reflexivity. Qed.

Lemma add_item_name (d : gmap (string + Z) (string + Z)) (it : Item)
    (s : string) :
  add_item d it !! inl s =
    if String.eqb (name it) s then Some (inr (value it)) else d !! inl s.
Proof.
  unfold add_item. rewrite lookup_insert_ne by discriminate.
  destruct (String.eqb_spec (name it) s) as [->|Hne].
  - apply lookup_insert_eq.
  - apply lookup_insert_ne. congruence.
Qed.

Lemma add_item_value (d : gmap (string + Z) (string + Z)) (it : Item)
    (z : Z) :
  add_item d it !! inr z =
    if value it =? z then Some (inl (name it)) else d !! inr z.
Proof.
  unfold add_item. destruct (Z.eqb_spec (value it) z) as [->|Hne].
  - apply lookup_insert_eq.
  - rewrite lookup_insert_ne by congruence.
    apply lookup_insert_ne. discriminate.
Qed.

(** X7.  For a table in which no name and no value occurs twice, the
    dict maps every name to its value and every value back to its
    name, so looking a code's tag up again gives the code. *)
Theorem eventcmdtag_both_ways (tags : list Item) (it : Item) :
  List.NoDup (List.map name tags) ->
  List.NoDup (List.map value tags) ->
  List.In it tags ->
  eventcmdtag tags !! inl (name it) = Some (inr (value it)) /\
  eventcmdtag tags !! inr (value it) = Some (inl (name it)).
Proof.
  induction tags as [|last tags IH] using rev_ind; intros Hn Hv Hin.
  - destruct Hin.
  - rewrite eventcmdtag_snoc, add_item_name, add_item_value.
    rewrite !List.map_app in Hn, Hv. simpl in Hn, Hv.
    apply List.NoDup_remove in Hn as [Hn Hn'], Hv as [Hv Hv'].
    rewrite !app_nil_r in *.
    apply List.in_app_or in Hin as [Hin|[->|[]]].
    + destruct (IH Hn Hv Hin) as [IHn IHv].
      destruct (String.eqb_spec (name last) (name it)) as [E|_].
      { exfalso. apply Hn'. rewrite E. apply List.in_map, Hin. }
      destruct (Z.eqb_spec (value last) (value it)) as [E|_].
      { exfalso. apply Hv'. rewrite E. apply List.in_map, Hin. }
      split; assumption.
    + rewrite String.eqb_refl, Z.eqb_refl. split; reflexivity.
Qed.

Lemma eventcmdtag_both_ways_witness :
  eventcmdtag Demo.kCodeTags !! inl (name Demo.wait)
    = Some (inr (value Demo.wait)) /\
  eventcmdtag Demo.kCodeTags !! inr (value Demo.wait)
    = Some (inl (name Demo.wait)).
Proof.
  apply eventcmdtag_both_ways.
  - repeat constructor; simpl; intuition discriminate.
  - repeat constructor; simpl; intuition discriminate.
  - right. left. reflexivity.
Defined.

(** X8.  The keys of the dict are the names and the values of the
    table and nothing else: a string that is no name and an integer
    that is no value are missing keys. *)
Theorem eventcmdtag_keys (tags : list Item) :
  (forall s : string,
     eventcmdtag tags !! inl s = None <-> ~ List.In s (List.map name tags)) /\
  (forall z : Z,
     eventcmdtag tags !! inr z = None <-> ~ List.In z (List.map value tags)).
Proof.
  induction tags as [|last tags [IHn IHv]] using rev_ind.
  - split; intros x; (split; [intros _ []|intros _; apply lookup_empty]).
  - split; intros x; rewrite eventcmdtag_snoc, List.map_app, List.in_app_iff;
      simpl.
    + rewrite add_item_name.
      destruct (String.eqb_spec (name last) x) as [->|Hne].
      * split; [discriminate | intros H; exfalso; apply H; tauto].
      * rewrite IHn. intuition.
    + rewrite add_item_value.
      destruct (Z.eqb_spec (value last) x) as [->|Hne].
      * split; [discriminate | intros H; exfalso; apply H; tauto].
      * rewrite IHv. intuition.
Qed.

End BindingsFacts.


(** * Facts about the casters of pycast.h *)

Module PycastFacts.

Import Pycast.

Section Caster.

Context {V Policy Parent : Type}.
Variable conv_load : handle -> bool -> option V.
Variable conv_cast : V -> Policy -> Parent -> option handle.
Variable zero : V.
Variable policy_override : Policy -> Policy.

Lemma insert_behind {A} (pre : list A) (x y : A) (rest : list A) :
  <[length pre := x]> (pre ++ y :: rest) = pre ++ x :: rest.
Proof. induction pre as [|a pre IH]; simpl; [|rewrite IH]; reflexivity. Qed.

(** The loop of [load] over a [value] that holds [pre] in front of
    fresh elements. *)
Lemma load_elements_run (convert : bool) (its : list handle) :
  forall (pre : list V) (k : nat),
    load_elements conv_load its convert (length pre)
      (pre ++ replicate (length its + k) zero) =
      match mapM (fun it => conv_load it convert) its with
      | Some vs => (None, pre ++ vs ++ replicate k zero)
      | None =>
          (Some false,
           pre ++ converted conv_load its convert
             ++ replicate
                  (length its - length (converted conv_load its convert) + k)
                  zero)
      end.
Proof.
  induction its as [|it its IH]; intros pre k.
  - reflexivity.
  - cbn [load_elements converted mapM length]. 
    destruct (conv_load it convert) as [x|]; cbn [mbind option_bind].
    + cbn [Nat.add replicate]. rewrite insert_behind.
      specialize (IH (pre ++ [x]) k).
      rewrite length_app, Nat.add_1_r, <- app_assoc in IH.
      cbn [length app] in IH. rewrite IH.
      destruct (mapM (fun it0 => conv_load it0 convert) its) as [vs|];
        cbn [mbind option_bind mret option_ret fmap option_fmap option_map];
        rewrite <- app_assoc; reflexivity.
    + reflexivity.
Qed.

(** The loop of [load] from the start, on the freshly sized array. *)
Lemma load_items (convert : bool) (items : list handle) :
  match load_elements conv_load items convert 0
          (replicate (length items) zero) with
  | (Some result, value') => (result, value')
  | (None, value') => (true, value')
  end =
  match mapM (fun it => conv_load it convert) items with
  | Some vs => (true, vs)
  | None =>
      (false,
       converted conv_load items convert
         ++ replicate
              (length items - length (converted conv_load items convert))
              zero)
  end.
Proof.
  pose proof (load_elements_run convert items [] 0) as E.
  cbn [length app] in E. rewrite !Nat.add_0_r in E. rewrite E.
  destruct (mapM _ items); [rewrite app_nil_r|]; reflexivity.
Qed.

(** X9.  [load] takes a list or a tuple exactly when every element
    converts; [value] is then the converted elements in order, as many
    as the sequence has, whatever it held before.  When an element
    does not convert, [load] answers false and leaves in [value] the
    elements converted so far followed by fresh ones.  An object that
    is no sequence, a [str] and a [bytes] object are refused with
    [value] untouched. *)
Theorem load_accepts_lists (value : list V) (src : handle) (convert : bool) :
  load conv_load zero value src convert =
    match src with
    | PyList items | PyTuple items =>
        match mapM (fun it => conv_load it convert) items with
        | Some vs => (true, vs)
        | None =>
            (false,
             converted conv_load items convert
               ++ replicate
                    (length items - length (converted conv_load items convert))
                    zero)
        end
    | _ => (false, value)
    end.
Proof. destruct src; try reflexivity; apply load_items. Qed.

(** The loop of [cast] over a list [l] that holds [pre] in front of
    the unset slots. *)
Lemma cast_elements_run (policy : Policy) (parent : Parent) (src : list V) :
  forall (pre : list handle) (k : nat),
    cast_elements conv_cast src policy parent (length pre)
      (pre ++ replicate (length src + k) PyNone) =
      (fun hs => pre ++ hs ++ replicate k PyNone)
        <$> mapM (fun x => conv_cast x policy parent) src.
Proof.
  induction src as [|x src IH]; intros pre k.
  - reflexivity.
  - cbn [cast_elements mapM length].
    destruct (conv_cast x policy parent) as [h|]; cbn [mbind option_bind];
      [|reflexivity].
    cbn [Nat.add replicate]. rewrite insert_behind.
    specialize (IH (pre ++ [h]) k).
    rewrite length_app, Nat.add_1_r, <- app_assoc in IH.
    cbn [length app] in IH. rewrite IH.
    destruct (mapM (fun x0 => conv_cast x0 policy parent) src) as [hs|];
      cbn [mbind option_bind mret option_ret fmap option_fmap option_map];
      [rewrite <- app_assoc|]; reflexivity.
Qed.

(** The loop of [cast] from the start, on the freshly sized list. *)
Lemma cast_items (policy : Policy) (parent : Parent) (src : list V) :
  cast_elements conv_cast src policy parent 0 (replicate (length src) PyNone) =
    mapM (fun x => conv_cast x policy parent) src.
Proof.
  pose proof (cast_elements_run policy parent src [] 0) as E.
  cbn [length app] in E. rewrite Nat.add_0_r in E. rewrite E.
  destruct (mapM _ src); cbn; [rewrite app_nil_r|]; reflexivity.
Qed.

(** X10.  [cast] gives a Python list holding the cast of every
    element, in order, and the null handle as soon as one element
    does not cast; an rvalue source has its policy overridden
    first. *)
Theorem cast_builds_list (is_lvalue : bool) (src : list V) (policy : Policy)
    (parent : Parent) :
  cast conv_cast policy_override is_lvalue src policy parent =
    PyList <$> mapM (fun x =>
                       conv_cast x
                         (if is_lvalue then policy else policy_override policy)
                         parent) src.
Proof.
  unfold cast. rewrite cast_items.
  destruct is_lvalue; cbn [negb]; destruct (mapM _ src); reflexivity.
Qed.

(** X11.  When every element of an array casts to an object that
    loads back to it, [cast] followed by [load] gives the array
    again. *)
Theorem cast_then_load (is_lvalue convert : bool) (src : list V)
    (policy : Policy) (parent : Parent) (value : list V) :
  (forall x, List.In x src ->
     exists h,
       conv_cast x (if is_lvalue then policy else policy_override policy)
         parent = Some h /\
       conv_load h convert = Some x) ->
  exists l : handle,
    cast conv_cast policy_override is_lvalue src policy parent = Some l /\
    load conv_load zero value l convert = (true, src).
Proof.
  intros Helem. unfold cast. rewrite cast_items.
  replace (if negb is_lvalue then policy_override policy else policy)
    with (if is_lvalue then policy else policy_override policy)
    by (destruct is_lvalue; reflexivity).
  set (pol := if is_lvalue then policy else policy_override policy) in *.
  assert (H : exists hs,
            mapM (fun x => conv_cast x pol parent) src = Some hs /\
            mapM (fun it => conv_load it convert) hs = Some src).
  { induction src as [|x src IH].
    - exists []. split; reflexivity.
    - destruct (Helem x (or_introl eq_refl)) as (h & Hc & Hl).
      destruct IH as (hs & Hcs & Hls).
      { intros y Hy. apply Helem. right. exact Hy. }
      exists (h :: hs). cbn [mapM]. rewrite Hc, Hl. cbn. rewrite Hcs, Hls.
      split; reflexivity. }
  destruct H as (hs & -> & Hload).
  exists (PyList hs). split; [reflexivity|].
  unfold load. cbn [is_sequence is_bytes is_str negb orb elements].
  rewrite load_items, Hload. reflexivity.
Qed.

End Caster.

Lemma cast_then_load_witness :
  exists l : handle,
    cast Demo.int_cast (fun policy => policy) true [1; 2; 3]%Z tt tt = Some l /\
    load Demo.int_load 0%Z [] l false = (true, [1; 2; 3]%Z).
Proof.
  apply cast_then_load. intros x _. exists (PyInt x). split; reflexivity.
Defined.

End PycastFacts.


(** * More facts about the loaders of index.cpp *)

Module LoaderFacts.

Import Pylcf PylcfFacts.
Local Open Scope string_scope.

Section Generic.

Context {Database TreeMap Map Save : Type}.
Variable env : Env Database TreeMap Map Save.

(** X12.  An encoding that is neither empty nor ["auto"] goes to the
    reader as it is: every loader makes exactly one call, with that
    encoding, runs no detection and leaves [parsed_encoding] alone. *)
Theorem explicit_encoding_parses_once (enc : string) (w : World) :
  auto_or_empty enc = false ->
  (forall path : string,
     read_ldb env path enc w =
       Returns (LDB_Reader_Load env path enc)
         (mkWorld (parsed_encoding w) (calls w ++ [LDB_Load path enc]))) /\
  (forall path : string,
     read_lmt env path enc w =
       Returns (LMT_Reader_Load env path enc)
         (mkWorld (parsed_encoding w) (calls w ++ [LMT_Load path enc]))) /\
  (forall path_or_id : PathOrId,
     read_lmu env path_or_id enc w =
       Returns (LMU_Reader_Load env (resolve_path path_or_id) enc)
         (mkWorld (parsed_encoding w)
            (calls w ++ [LMU_Load (resolve_path path_or_id) enc]))) /\
  (forall path_or_id : PathOrId,
     let path := resolve_path path_or_id in
     exists obj c,
       read_lcf env path_or_id enc w =
         Returns obj (mkWorld (parsed_encoding w) (calls w ++ [c])) /\
       (c = LDB_Load path enc \/ c = LMT_Load path enc \/
        c = LSD_Load path enc \/ c = LMU_Load path enc \/ c = Print path)).
Proof.
  intros Henc.
  assert (Hne : empty enc = false).
  { unfold auto_or_empty in Henc. apply orb_false_iff in Henc. tauto. }
  repeat split.
  - intros path. rewrite read_ldb_run, Henc. reflexivity.
  - intros path. unfold read_lmt, load_lmt, bind, emit, ret. simpl.
    rewrite Henc. reflexivity.
  - intros path_or_id. unfold read_lmu, load_lmu, bind, emit, ret. simpl.
    rewrite Henc. reflexivity.
  - intros path_or_id path.
    destruct (String.eqb_spec (read_header (file_content env path)) sig_database)
      as [Hdb|Hother].
    + rewrite (read_lcf_database_run env path_or_id enc w Hdb).
      rewrite Henc. cbn zeta. rewrite Henc.
      do 2 eexists. split; [reflexivity|]. left. reflexivity.
    + destruct (read_lcf_other_run env path_or_id enc w Hother)
        as (obj & c & Hrun & Hc).
      rewrite Henc, Hne in Hc. exists obj, c. split; [exact Hrun|]. tauto.
Qed.

(** X13.  When detection is asked for and the first parse gives no
    record, the record is dereferenced all the same: [read_ldb], and
    [read_lcf] on a database file, never reach their null check. *)
Theorem failed_first_parse_is_dereferenced (path : string) (enc : string)
    (w : World) :
  auto_or_empty enc = true ->
  (LDB_Reader_Load env path enc = None ->
   read_ldb env path enc w =
     NullDeref (mkWorld (parsed_encoding w) (calls w ++ [LDB_Load path enc]))) /\
  (forall path_or_id : PathOrId,
     resolve_path path_or_id = path ->
     read_header (file_content env path) = sig_database ->
     auto_or_empty (parsed_encoding w) = true ->
     LDB_Reader_Load env path (parsed_encoding w) = None ->
     read_lcf env path_or_id enc w =
       NullDeref (mkWorld (parsed_encoding w)
                    (calls w ++ [LDB_Load path (parsed_encoding w)]))).
Proof.
  intros Henc. split.
  - intros Hnull. rewrite read_ldb_run, Henc, Hnull. reflexivity.
  - intros path_or_id <- Hh Hc Hnull.
    rewrite (read_lcf_database_run env path_or_id enc w Hh).
    rewrite Henc. cbn zeta. rewrite Hc, Hnull. reflexivity.
Qed.

(** The detection block either leaves [parsed_encoding] as it was or
    sets it to the encoding of the parse it ends with. *)
Lemma guess_and_reparse_stores (path enc : string) (db : option Database)
    (w : World) :
  match guess_and_reparse env path enc db w with
  | Returns _ w' =>
      exists new : list Call,
        calls w' = (calls w ++ new)%list /\
        (parsed_encoding w' = parsed_encoding w \/
         last new = Some (LDB_Load path (parsed_encoding w')))
  | NullDeref w' => w' = w
  end.
Proof.
  destruct db as [db|]; [|reflexivity].
  destruct (guess_and_reparse_run env path enc db w)
    as (resolved & stored & -> & Hcase).
  exists [DetectEncodings; LDB_Load path resolved]. split; [reflexivity|].
  simpl.
  destruct (probe_hit env path (system_name env db)
              (ReaderUtil_DetectEncodings env db)).
  - destruct Hcase as [-> _]. right. reflexivity.
  - destruct (ReaderUtil_DetectEncodings env db); [|destruct (empty enc)];
      destruct Hcase as [-> ->]; auto.
Qed.

(** X14.  No loader ever gives [parsed_encoding] a value it does not
    itself parse with: after [read_ldb] or [read_lcf] the stored
    encoding is the old one, or the encoding of the last database
    parse of that call; [read_lmt] and [read_lmu] never change it. *)
Theorem loaders_store_only_what_they_parse_with (enc : string) (w : World) :
  (forall path : string,
     match read_ldb env path enc w with
     | Returns _ w' | NullDeref w' =>
         exists new : list Call,
           calls w' = (calls w ++ new)%list /\
           (parsed_encoding w' = parsed_encoding w \/
            last new = Some (LDB_Load path (parsed_encoding w')))
     end) /\
  (forall path_or_id : PathOrId,
     match read_lcf env path_or_id enc w with
     | Returns _ w' | NullDeref w' =>
         exists new : list Call,
           calls w' = (calls w ++ new)%list /\
           (parsed_encoding w' = parsed_encoding w \/
            last new =
              Some (LDB_Load (resolve_path path_or_id) (parsed_encoding w')))
     end) /\
  (forall path : string,
     exists data new,
       read_lmt env path enc w =
         Returns data (mkWorld (parsed_encoding w) ((calls w ++ new)%list))) /\
  (forall path_or_id : PathOrId,
     exists data new,
       read_lmu env path_or_id enc w =
         Returns data (mkWorld (parsed_encoding w) ((calls w ++ new)%list))).
Proof.
  assert (Hblock : forall (path e : string) (db : option Database) (w1 : World) (c : Call),
    calls w1 = (calls w ++ [c])%list -> parsed_encoding w1 = parsed_encoding w ->
    match guess_and_reparse env path e db w1 with
    | Returns _ w' | NullDeref w' =>
        exists new : list Call,
          calls w' = (calls w ++ new)%list /\
          (parsed_encoding w' = parsed_encoding w \/
           last new = Some (LDB_Load path (parsed_encoding w')))
    end).
  { intros path e db w1 c Hc Hp.
    pose proof (guess_and_reparse_stores path e db w1) as H.
    destruct (guess_and_reparse env path e db w1) as [r w'|w'].
    - destruct H as (new & Hnew & Hst). exists (c :: new). split.
      + rewrite Hnew, Hc, <- app_assoc. reflexivity.
      + rewrite <- Hp. destruct Hst as [Hst|Hst]; [left; exact Hst|].
        right. destruct new as [|c' new]; [discriminate Hst|exact Hst].
    - subst w'. exists [c]. auto. }
  repeat split.
  - intros path. rewrite read_ldb_run. cbn zeta.
    destruct (auto_or_empty enc).
    + eapply Hblock; reflexivity.
    + eexists. split; [reflexivity|]. left. reflexivity.
  - intros path_or_id.
    destruct (String.eqb_spec
                (read_header (file_content env (resolve_path path_or_id)))
                sig_database) as [Hdb|Hother].
    + rewrite (read_lcf_database_run env path_or_id enc w Hdb). cbn zeta.
      destruct (auto_or_empty (if auto_or_empty enc then _ else _)).
      * match goal with
        | |- context [guess_and_reparse env ?p ?e ?db ?w1] =>
            pose proof (Hblock p e db w1 _ eq_refl eq_refl) as H;
            destruct (guess_and_reparse env p e db w1)
        end; exact H.
      * eexists. split; [reflexivity|]. left. reflexivity.
    + destruct (read_lcf_other_run env path_or_id enc w Hother)
        as (obj & c & -> & _).
      exists [c]. split; [reflexivity|]. left. reflexivity.
  - intros path. unfold read_lmt, load_lmt, bind, emit, ret. simpl.
    do 2 eexists. reflexivity.
  - intros path_or_id. unfold read_lmu, load_lmu, bind, emit, ret. simpl.
    do 2 eexists. reflexivity.
Qed.

(** X15.  With an ASCII system name the filesystem is not probed: an
    empty encoding resolves to the first candidate, which is stored,
    and to the locale's encoding, which is not stored, when there is
    no candidate. *)
Theorem ascii_name_takes_first_candidate (path : string) (db : Database)
    (w : World) :
  LDB_Reader_Load env path "" = Some db ->
  StringIsAscii (system_name env db) = true ->
  read_ldb env path "" w =
    match ReaderUtil_DetectEncodings env db with
    | front :: _ =>
        Returns (LDB_Reader_Load env path front)
          (mkWorld front
             (calls w ++ [LDB_Load path ""; DetectEncodings;
                          LDB_Load path front]))
    | [] =>
        Returns (LDB_Reader_Load env path (ReaderUtil_GetLocaleEncoding env))
          (mkWorld (parsed_encoding w)
             (calls w ++ [LDB_Load path ""; DetectEncodings;
                          LDB_Load path (ReaderUtil_GetLocaleEncoding env)]))
    end.
Proof.
  intros Hdb Hascii. rewrite read_ldb_run, Hdb. cbn zeta. cbn [auto_or_empty empty orb].
  assert (Hmiss : probe_hit env path (system_name env db)
                    (ReaderUtil_DetectEncodings env db) = None).
  { unfold probe_hit. rewrite Hascii. reflexivity. }
  destruct (empty_parameter_takes_first_candidate env path db
              (mkWorld (parsed_encoding w) (calls w ++ [LDB_Load path ""]))
              Hmiss) as (resolved & stored & -> & Hcase).
  destruct (ReaderUtil_DetectEncodings env db); destruct Hcase as [-> ->];
    simpl; rewrite <- app_assoc; reflexivity.
Qed.

(** X16.  An encoding set through [encoding], other than ["auto"], is
    what the loads that follow with an empty parameter parse with: a
    database file is parsed once, with that encoding and without
    detection, and so is a map tree. *)
Theorem set_encoding_then_load (e : string) (w : World) :
  auto_or_empty e = false ->
  (forall path_or_id : PathOrId,
     let path := resolve_path path_or_id in
     read_header (file_content env path) = sig_database ->
     (_ <- encoding e ;; read_lcf env path_or_id "") w =
       Returns (ObjDatabase (LDB_Reader_Load env path e))
         (mkWorld e (calls w ++ [LDB_Load path e]))) /\
  (forall path : string,
     (_ <- encoding e ;; read_lmt env path "") w =
       Returns (LMT_Reader_Load env path e)
         (mkWorld e (calls w ++ [LMT_Load path e]))).
Proof.
  intros He.
  assert (Hne : empty e = false).
  { unfold auto_or_empty in He. apply orb_false_iff in He. tauto. }
  assert (Hset : encoding e w = Returns e (mkWorld e (calls w))).
  { unfold encoding. rewrite Hne. reflexivity. }
  split.
  - intros path_or_id path Hh. unfold bind at 1. rewrite Hset.
    cbv beta iota. rewrite (read_lcf_database_run env path_or_id "" _ Hh). cbn zeta.
    cbn [auto_or_empty empty orb parsed_encoding calls]. rewrite He.
    reflexivity.
  - intros path. unfold bind at 1. rewrite Hset. cbv beta iota.
    unfold read_lmt, load_lmt, bind, emit, ret. reflexivity.
Qed.

(** X17.  Setting the encoding to ["auto"] makes the next [read_lcf]
    of a database file run detection again, as the module's docstring
    says: once the first parse gives a record, [DetectEncodings] is
    called and a second parse follows. *)
Theorem set_auto_then_load_detects (path_or_id : PathOrId) (db : Database)
    (w : World) :
  let path := resolve_path path_or_id in
  read_header (file_content env path) = sig_database ->
  LDB_Reader_Load env path "auto" = Some db ->
  exists resolved stored : string,
    (_ <- encoding "auto" ;; read_lcf env path_or_id "") w =
      Returns (ObjDatabase (LDB_Reader_Load env path resolved))
        (mkWorld stored
           (calls w ++ [LDB_Load path "auto"; DetectEncodings;
                        LDB_Load path resolved])).
Proof.
  intros path Hh Hdb. unfold bind at 1.
  change (encoding "auto" w) with (Returns "auto" (mkWorld "auto" (calls w))).
  cbv beta iota. rewrite (read_lcf_database_run env path_or_id "" _ Hh). cbn zeta.
  cbn [auto_or_empty empty orb parsed_encoding calls].
  change ("auto" =? "auto") with true. cbn [orb]. fold path. rewrite Hdb.
  destruct (guess_and_reparse_run env path "auto" db
              (mkWorld "auto" (calls w ++ [LDB_Load path "auto"])))
    as (resolved & stored & -> & _).
  exists resolved, stored. simpl. rewrite <- app_assoc. reflexivity.
Qed.

(** X18.  [read_lcf] on a map-tree or a map-unit file does what
    [read_lmt] or [read_lmu] does whenever the encoding in effect (the
    parameter, or the stored encoding for an empty or ["auto"]
    parameter) is not empty; when it is empty, [read_lcf] parses with
    the locale's encoding while [read_lmt] and [read_lmu] hand the
    empty encoding to their reader. *)
Theorem read_lcf_agrees_with_kind_loader (path_or_id : PathOrId)
    (enc : string) (w : World) :
  let path := resolve_path path_or_id in
  let e := if auto_or_empty enc then parsed_encoding w else enc in
  let locale := ReaderUtil_GetLocaleEncoding env in
  (read_header (file_content env path) = sig_map_tree ->
   read_lmt env path enc w =
     Returns (LMT_Reader_Load env path e)
       (mkWorld (parsed_encoding w) (calls w ++ [LMT_Load path e])) /\
   read_lcf env path_or_id enc w =
     let e' := if empty e then locale else e in
     Returns (ObjTreeMap (LMT_Reader_Load env path e'))
       (mkWorld (parsed_encoding w) (calls w ++ [LMT_Load path e']))) /\
  (read_header (file_content env path) = sig_map_unit ->
   read_lmu env path_or_id enc w =
     Returns (LMU_Reader_Load env path e)
       (mkWorld (parsed_encoding w) (calls w ++ [LMU_Load path e])) /\
   read_lcf env path_or_id enc w =
     let e' := if empty e then locale else e in
     Returns (ObjMap (LMU_Reader_Load env path e'))
       (mkWorld (parsed_encoding w) (calls w ++ [LMU_Load path e']))).
Proof.
  intros path e locale. split; intros Hh; (split; [reflexivity|]);
    unfold read_lcf; fold path; rewrite Hh; reflexivity.
Qed.

End Generic.

Lemma explicit_encoding_parses_once_witness :
  read_ldb Demo.env Demo.game_ldb "windows-1252" initial_world =
    Returns (LDB_Reader_Load Demo.env Demo.game_ldb "windows-1252")
      (mkWorld "" [LDB_Load Demo.game_ldb "windows-1252"]).
Proof.
  exact (proj1 (explicit_encoding_parses_once Demo.env "windows-1252"
                  initial_world eq_refl) Demo.game_ldb).
Defined.

Lemma failed_first_parse_is_dereferenced_witness :
  read_ldb Demo.env "/nowhere/RPG_RT.ldb" "" initial_world =
    NullDeref (mkWorld "" [LDB_Load "/nowhere/RPG_RT.ldb" ""]).
Proof.
  exact (proj1 (failed_first_parse_is_dereferenced Demo.env
                  "/nowhere/RPG_RT.ldb" "" initial_world eq_refl) eq_refl).
Defined.

Lemma ascii_name_takes_first_candidate_witness :
  read_ldb Demo.env Demo.plain_ldb "" initial_world =
    Returns (LDB_Reader_Load Demo.env Demo.plain_ldb "windows-1252")
      (mkWorld "windows-1252"
         [LDB_Load Demo.plain_ldb ""; DetectEncodings;
          LDB_Load Demo.plain_ldb "windows-1252"]).
Proof.
  exact (ascii_name_takes_first_candidate Demo.env Demo.plain_ldb
           (Demo.mkDb Demo.plain_ldb "") initial_world eq_refl eq_refl).
Defined.

Lemma set_encoding_then_load_witness :
  (_ <- encoding "shift_jis" ;; read_lcf Demo.env (Path Demo.game_ldb) "")
    initial_world =
    Returns (ObjDatabase (LDB_Reader_Load Demo.env Demo.game_ldb "shift_jis"))
      (mkWorld "shift_jis" [LDB_Load Demo.game_ldb "shift_jis"]).
Proof.
  exact (proj1 (set_encoding_then_load Demo.env "shift_jis" initial_world
                  eq_refl) (Path Demo.game_ldb) eq_refl).
Defined.

Lemma set_auto_then_load_detects_witness :
  exists resolved stored : string,
    (_ <- encoding "auto" ;; read_lcf Demo.env (Path Demo.game_ldb) "")
      initial_world =
      Returns (ObjDatabase (LDB_Reader_Load Demo.env Demo.game_ldb resolved))
        (mkWorld stored
           [LDB_Load Demo.game_ldb "auto"; DetectEncodings;
            LDB_Load Demo.game_ldb resolved]).
Proof.
  exact (set_auto_then_load_detects Demo.env (Path Demo.game_ldb)
           (Demo.mkDb Demo.game_ldb "auto") initial_world eq_refl eq_refl).
Defined.

(** X19.  [encoding] always answers with the stored encoding as it
    is after the call, and cannot empty it: the stored encoding is
    empty afterwards only when it was empty before and the argument
    was empty too. *)
Theorem encoding_never_empties (e : string) (w : World) :
  exists w' : World,
    encoding e w = Returns (parsed_encoding w') w' /\
    calls w' = calls w /\
    (parsed_encoding w' = "" <-> parsed_encoding w = "" /\ e = "").
Proof.
  destruct e as [|c s].
  - exists w. repeat split; tauto.
  - exists (mkWorld (String c s) (calls w)).
    repeat split; simpl; try discriminate. intros [_ H]. discriminate H.
Qed.

(** ** The header *)

Lemma length_c_string (s : string) :
  (String.length (c_string s) <= String.length s)%nat.
Proof.
  induction s as [|c s IH]; simpl; [apply Nat.le_0_l|].
  destruct (Ascii.eqb c zero); simpl; auto using Nat.le_0_l, le_n_S.
Qed.

Lemma length_take (n : nat) (s : string) :
  (String.length (take n s) <= String.length s)%nat.
Proof.
  revert s. induction n as [|n IH]; intros [|c s]; simpl;
    auto using Nat.le_0_l, le_n_S.
Qed.

Lemma length_skip_one (s : string) :
  (String.length (skip 1 s) = String.length s - 1)%nat.
Proof. destruct s; simpl; [reflexivity | symmetry; apply Nat.sub_0_r]. Qed.

Lemma length_signature (s : string) :
  List.In s signatures -> String.length s = 10%nat.
Proof. intros [<-|[<-|[<-|[<-|[]]]]]; reflexivity. Qed.

(** X20.  The header test looks at bytes 1 to 10 only: a file that
    carries one of the four signatures there is taken for that kind
    whatever its first byte is and whatever follows. *)
Theorem header_ignores_first_byte_and_tail (sig : string) (first : ascii)
    (tail : string) :
  List.In sig signatures ->
  read_header (Some (String first (sig ++ tail))) = sig.
Proof. intros [<-|[<-|[<-|[<-|[]]]]]; reflexivity. Qed.

Lemma header_ignores_first_byte_and_tail_witness :
  read_header (Some (String "x" (sig_map_tree ++ "and the rest"))) =
    sig_map_tree.
Proof.
  apply header_ignores_first_byte_and_tail. right. left. reflexivity.
Defined.

(** X21.  A file that cannot be opened, or that has fewer than eleven
    bytes, is never recognised: [read_lcf] prints its path and returns
    no record, with no reader called, whatever the encoding. *)
Theorem short_file_is_not_supported {Database TreeMap Map Save : Type}
    (env : Env Database TreeMap Map Save) (path_or_id : PathOrId)
    (enc : string) (w : World) :
  let path := resolve_path path_or_id in
  match file_content env path with
  | Some content => (String.length content < 11)%nat
  | None => True
  end ->
  read_lcf env path_or_id enc w =
    Returns ObjNone (mkWorld (parsed_encoding w) (calls w ++ [Print path])).
Proof.
  intros path Hshort.
  assert (Hlen : (String.length (read_header (file_content env path)) < 10)%nat).
  { destruct (file_content env path) as [content|]; unfold read_header;
      [|simpl; lia].
    pose proof (length_c_string (take 10 (skip 1 content))).
    pose proof (length_take 10 (skip 1 content)).
    pose proof (length_skip_one content). lia. }
  assert (Hno : ~ List.In (read_header (file_content env path)) signatures).
  { intros Hin. apply length_signature in Hin. lia. }
  apply not_signature in Hno as (H1 & H2 & H3 & H4).
  unfold read_lcf. fold path. rewrite H1, H2, H3, H4. reflexivity.
Qed.

Lemma short_file_is_not_supported_witness :
  read_lcf Demo.env (Path Demo.game_system_file) "" initial_world =
    Returns ObjNone (mkWorld "" [Print Demo.game_system_file]).
Proof.
  apply (short_file_is_not_supported Demo.env (Path Demo.game_system_file)
           "" initial_world).
  vm_compute. lia.
Defined.


(** ** Map file names *)

Lemma to_uint_no_leading_zero (p : positive) (d : Decimal.uint) :
  Pos.to_uint p <> Decimal.D0 d.
Proof.
  intros H.
  pose proof (DecimalPos.Unsigned.to_of (Pos.to_uint p)) as Hnorm.
  rewrite DecimalPos.Unsigned.of_to in Hnorm. simpl N.to_uint in Hnorm.
  rewrite H, DecimalFacts.unorm_D0 in Hnorm. unfold Decimal.unorm in Hnorm.
  destruct (Decimal.nzhead d) eqn:Hd.
  - injection Hnorm as Hn. subst d.
    exact (DecimalPos.Unsigned.to_uint_nonzero p H).
  - exact (DecimalFacts.nzhead_nonzero d _ Hd).
  - discriminate Hnorm.
  - discriminate Hnorm.
  - discriminate Hnorm.
  - discriminate Hnorm.
  - discriminate Hnorm.
  - discriminate Hnorm.
  - discriminate Hnorm.
  - discriminate Hnorm.
  - discriminate Hnorm.
Qed.

Lemma string_of_uint_head (d : Decimal.uint) (s : string) :
  NilZero.string_of_uint d = String "0" s ->
  d = Decimal.Nil \/ exists d', d = Decimal.D0 d'.
Proof. destruct d; simpl; intros H; try discriminate H; eauto. Qed.

(** The decimal text of an integer starts with the digit 0 only when it
    is the text of zero, and is never empty. *)
Lemma decimal_leading_zero (z : Z) (s : string) :
  decimal z = String "0" s -> s = "".
Proof.
  unfold decimal. destruct z as [|p|p]; simpl.
  - intros [= <-]. reflexivity.
  - intros H. apply string_of_uint_head in H as [H|[d' H]].
    + destruct (DecimalPos.Unsigned.to_uint_nonnil p H).
    + destruct (to_uint_no_leading_zero p d' H).
  - discriminate.
Qed.

Lemma decimal_not_empty (z : Z) : decimal z <> "".
Proof.
  unfold decimal. destruct z as [|p|p]; simpl; try discriminate.
  destruct (Pos.to_uint p); discriminate.
Qed.

Lemma decimal_injective (a b : Z) : decimal a = decimal b -> a = b.
Proof.
  unfold decimal. intros H.
  assert (Hnil : forall z, Z.to_int z <> Decimal.Pos Decimal.Nil
                           /\ Z.to_int z <> Decimal.Neg Decimal.Nil).
  { intros [|p|p]; simpl; split; try discriminate; intros [= E];
      exact (DecimalPos.Unsigned.to_uint_nonnil p E). }
  apply DecimalZ.to_int_inj.
  assert (E : Some (Z.to_int a) = Some (Z.to_int b)).
  { rewrite <- (NilZero.isi (Z.to_int a)) by apply Hnil.
    rewrite <- (NilZero.isi (Z.to_int b)) by apply Hnil.
    rewrite H. reflexivity. }
  injection E as E. exact E.
Qed.

Lemma length_append (a b : string) :
  String.length (a ++ b) = (String.length a + String.length b)%nat.
Proof.
  induction a as [|c a IH]; [reflexivity|].
  change (S (String.length (a ++ b)) = S (String.length a + String.length b)).
  rewrite IH. reflexivity.
Qed.

Lemma append_cancel_r (c a b : string) : a ++ c = b ++ c -> a = b.
Proof.
  revert b. induction a as [|x a IH]; intros [|y b] H.
  - reflexivity.
  - apply (f_equal String.length) in H. rewrite !length_append in H.
    simpl in H. lia.
  - apply (f_equal String.length) in H. rewrite !length_append in H.
    simpl in H. lia.
  - change (String x (a ++ c) = String y (b ++ c)) in H.
    injection H as -> H. f_equal. apply IH, H.
Qed.

(** Two texts that are not empty and carry no padding zero of their own
    are equal when their padded forms are. *)
Lemma setw_setfill_injective (s t : string) :
  s <> "" -> t <> "" ->
  (forall r, s = String "0" r -> r = "") ->
  (forall r, t = String "0" r -> r = "") ->
  setw_setfill 4 "0" s = setw_setfill 4 "0" t -> s = t.
Proof.
  intros Hs Ht Zs Zt H. unfold setw_setfill in H.
  destruct s as [|s1 [|s2 [|s3 [|s4 s]]]]; [contradiction|..];
    destruct t as [|t1 [|t2 [|t3 [|t4 t]]]]; try contradiction;
    cbv [String.length Nat.sub fill_string append] in H;
    injection H; intros; subst; try reflexivity; exfalso;
    first [ discriminate (Zs _ eq_refl) | discriminate (Zt _ eq_refl) ].
Qed.

(** X22.  Different map ids give different file names: [map_path] is
    one-to-one on all integers, padded or not. *)
Theorem map_path_injective (a b : Z) : map_path a = map_path b -> a = b.
Proof.
  unfold map_path. intros H.
  change ("Map" ++ ?s)%string with (String "M" (String "a" (String "p" s))) in H.
  injection H as H. apply append_cancel_r in H.
  apply decimal_injective, setw_setfill_injective;
    [ apply decimal_not_empty | apply decimal_not_empty
    | intros r; apply decimal_leading_zero
    | intros r; apply decimal_leading_zero
    | exact H ].
Qed.

Lemma map_path_injective_witness : 7%Z = 7%Z.
Proof. exact (map_path_injective 7 7 eq_refl). Defined.

End LoaderFacts.
